(** * gosip: the request dispatcher, the connection wrapper, the parser buffer
    and the test mocks, embedded as Rocq functions.

    Files covered:
    - server.go          (package gosip)     : [Gosip]
    - transport/connection.go                : [Transport]
    - sip/parser/parserbuffer.go             : [Parser]
    - testutils/mocks.go                     : [Testutils]

    Locks ([hmu]), the wait group ([hwg]) and logging have no effect on the
    values computed by one call and are left out; every function below is the
    sequential reading of the Go method of the same name. *)

From stdpp Require Import gmap strings list.
From Stdlib Require Import ZArith Ascii.
From Stdlib.Strings Require Import Byte.

Local Open Scope string_scope.
Local Open Scope Z_scope.
Local Open Scope list_scope.

(** ** Go run-time outcomes *)

(** A Go call either returns or panics (failed type assertion, nil
    dereference, negative [make] length). *)
Inductive outcome (A : Type) : Type :=
| Ok (a : A)
| Panic (msg : string).
Arguments Ok {A} a.
Arguments Panic {A} msg.

Definition obind {A B} (o : outcome A) (k : A -> outcome B) : outcome B :=
  match o with
  | Ok a => k a
  | Panic m => Panic m
  end.

Notation "x <-! o ; k" := (obind o (fun x => k))
  (at level 100, o at next level, right associativity).

(** Go's [error] interface value: [None] is [nil]. *)
Definition error := option string.

(** [strings.Join]. *)
Fixpoint Join (elems : list string) (sep : string) : string :=
  match elems with
  | [] => ""
  | [e] => e
  | e :: rest => e +:+ sep +:+ Join rest sep
  end.

(** What a reader of a header value that lists names takes the names to
    be: the value cut at every comma that a space follows.  [field] holds
    the name read so far. *)
Fixpoint fields_from (field value : string) : list string :=
  match value with
  | EmptyString => [field]
  | String c rest =>
      match rest with
      | String c' rest' =>
          if (Ascii.eqb c "," && Ascii.eqb c' " ")%bool
          then field :: fields_from "" rest'
          else fields_from (field +:+ String c "") rest
      | EmptyString => fields_from (field +:+ String c "") rest
      end
  end.

Definition listed (value : string) : list string := fields_from "" value.

(** A name with a comma in it. *)
Fixpoint has_comma (s : string) : bool :=
  match s with
  | EmptyString => false
  | String c rest => Ascii.eqb c "," || has_comma rest
  end.

(** ** Package sip: the message model *)

Module Sip.

(** [type RequestMethod string] and the method constants. *)
Definition RequestMethod := string.
Definition INVITE : RequestMethod := "INVITE".
Definition ACK : RequestMethod := "ACK".
Definition CANCEL : RequestMethod := "CANCEL".
Definition OPTIONS : RequestMethod := "OPTIONS".
Definition REGISTER : RequestMethod := "REGISTER".
Definition REFER : RequestMethod := "REFER".
Definition NOTIFY : RequestMethod := "NOTIFY".

(** Modelled from the spec: the declarations of package sip are not among
    the sources.  [sip.Header] is an interface; the server builds
    [GenericHeader] and [SupportedHeader] values and reads [CSeq] ones
    (a sequence number and a method).  [OtherHeader] stands for a value of
    any other type that implements the interface, under whatever name it
    reports. *)
Inductive Header : Type :=
| GenericHeader (HeaderName Contents : string)
| SupportedHeader (Options : list string)
| CSeq (SeqNo : Z) (MethodName : RequestMethod)
| OtherHeader (name value : string).

Definition Name (h : Header) : string :=
  match h with
  | GenericHeader n _ => n
  | SupportedHeader _ => "Supported"
  | CSeq _ _ => "CSeq"
  | OtherHeader n _ => n
  end.

#[global] Instance Header_eq_dec : EqDecision Header.
Proof. solve_decision. Defined.

(** Modelled from the spec: a message carries an ordered header list; a
    request has a method token and a request-URI, a response a status code
    and a reason phrase. *)
Record Request : Type := mkRequest {
  req_method : RequestMethod;
  req_uri : string;
  req_headers : list Header;
  req_body : string
}.

Record Response : Type := mkResponse {
  res_status : Z;
  res_reason : string;
  res_headers : list Header;
  res_body : string
}.

(** Modelled from the spec: the accessor by name returns the headers of
    that name in message order. *)
Definition named (name : string) (h : Header) : bool :=
  bool_decide (Name h = name).

Definition headers_named (name : string) (hs : list Header) : list Header :=
  List.filter (named name) hs.

(** The first header of a name, rewritten in place (a Go pointer into the
    header list, assigned through). *)
Fixpoint update_first (name : string) (f : Header -> Header)
    (hs : list Header) : list Header :=
  match hs with
  | [] => []
  | h :: rest =>
      if named name h then f h :: rest
      else h :: update_first name f rest
  end.

(** Modelled from the spec: the header appender adds at the end of the
    ordered list. *)
Definition append_header (h : Header) (hs : list Header) : list Header :=
  hs ++ [h].

(** Modelled from the spec: the typed accessor for CSeq looks at the first
    header of that name and succeeds when it is a [CSeq] value. *)
Definition cseq_of (hs : list Header) : option (Z * RequestMethod) :=
  match headers_named "CSeq" hs with
  | CSeq n m :: _ => Some (n, m)
  | _ => None
  end.

Module Req.
Definition Method (r : Request) : RequestMethod := req_method r.
(** Modelled from the spec: an ACK is a request whose method is ACK. *)
Definition IsAck (r : Request) : bool := bool_decide (req_method r = ACK).
Definition GetHeaders (name : string) (r : Request) : list Header :=
  headers_named name (req_headers r).
Definition AppendHeader (h : Header) (r : Request) : Request :=
  mkRequest (req_method r) (req_uri r) (append_header h (req_headers r))
            (req_body r).
End Req.

Module Res.
Definition GetHeaders (name : string) (r : Response) : list Header :=
  headers_named name (res_headers r).
Definition AppendHeader (h : Header) (r : Response) : Response :=
  mkResponse (res_status r) (res_reason r)
             (append_header h (res_headers r)) (res_body r).
Definition CSeq (r : Response) : option (Z * RequestMethod) :=
  cseq_of (res_headers r).
Definition with_headers (hs : list Header) (r : Response) : Response :=
  mkResponse (res_status r) (res_reason r) hs (res_body r).
End Res.

(** Modelled from the spec: [sip.NewResponseFromRequest] is not among the
    sources.  It builds a response with the given status code, reason
    phrase and body; which headers it takes over from the request is left
    open ([inherit_headers]). *)
Class ResponseBuilder : Type := {
  inherit_headers : Request -> list Header
}.

Definition NewResponseFromRequest {B : ResponseBuilder}
    (req : Request) (statusCode : Z) (reason body : string) : Response :=
  mkResponse statusCode reason (inherit_headers req) body.

(** The usual choice: the headers that identify the transaction. *)
Definition transaction_headers : ResponseBuilder := {|
  inherit_headers req :=
    List.concat
      (List.map (fun n => headers_named n (req_headers req))
                ["Via"; "From"; "To"; "Call-ID"; "CSeq"])
|}.

End Sip.


(** ** Package transaction: the layer the server hands messages to *)

Module Transaction.
Import Sip.

(** Modelled from the spec: [transaction.Layer] is an interface whose
    implementation is not among the sources.  [Request] and [Respond] take
    the message and return an error or nil (the returned channel is not
    modelled); what they do to the layer is a step on its state [Tx]. *)
Class Layer (Tx : Type) : Type := {
  Request : Sip.Request -> Tx -> error * Tx;
  Respond : Sip.Response -> Tx -> error * Tx
}.

(** A layer that accepts every message and records it. *)
Inductive handoff : Type :=
| Requested (req : Sip.Request)
| Responded (res : Sip.Response).

Definition recording : Layer (list handoff) := {|
  Request req log := (None, log ++ [Requested req]);
  Respond res log := (None, log ++ [Responded res])
|}.

(** Modelled from the spec: the layers have an orderly shutdown, [Cancel()]
    followed by a wait on [Done()]; [Cancel] here is the layer as it is once
    that wait is over. *)
Class Cancellable (T : Type) : Type := {
  Cancel : T -> T
}.

End Transaction.

(** ** Package gosip: server.go *)

Module Gosip.
Import Sip.

(** [Server]: [tx] is the transaction layer, [inShutdown] the int32
    in-flight-shutdown counter, [requestHandlers] the handler table and
    [extensions] the configured option tokens.  The handlers are Go func
    values, an opaque type [Handler] here.  The transport layer [tp] is used
    by [Listen] and [Shutdown] only and is left out. *)
Record Server (Tx Handler : Type) : Type := mkServer {
  tx : Tx;
  inShutdown : Z;
  requestHandlers : gmap RequestMethod (list Handler);
  extensions : list string
}.
Arguments mkServer {Tx Handler} _ _ _ _.
Arguments tx {Tx Handler} _.
Arguments inShutdown {Tx Handler} _.
Arguments requestHandlers {Tx Handler} _.
Arguments extensions {Tx Handler} _.

Definition set_tx {Tx Handler} (t : Tx) (srv : Server Tx Handler) :
    Server Tx Handler :=
  mkServer t (inShutdown srv) (requestHandlers srv) (extensions srv).

Definition set_requestHandlers {Tx Handler}
    (m : gmap RequestMethod (list Handler)) (srv : Server Tx Handler) :
    Server Tx Handler :=
  mkServer (tx srv) (inShutdown srv) m (extensions srv).

(** [atomic.LoadInt32(&srv.inShutdown) != 0] *)
Definition shuttingDown {Tx Handler} (srv : Server Tx Handler) : bool :=
  negb (inShutdown srv =? 0).

(** The [added] table of [getAllowedMethods]. *)
Definition added : gmap RequestMethod bool :=
  <[INVITE := true]> (<[ACK := true]> (<[CANCEL := true]> ∅)).

(** [for method := range srv.requestHandlers]: the keys of the table, each
    once.  Go leaves the order of a range over a map open; the order here is
    the one [map_to_list] lists them in, and nothing proved below depends on
    which it is. *)
Definition range_keys {Handler} (m : gmap RequestMethod (list Handler)) :
    list RequestMethod :=
  (map_to_list m).*1.

Definition getAllowedMethods {Tx Handler} (srv : Server Tx Handler) :
    list RequestMethod :=
  fold_left
    (fun methods method =>
       match added !! method with
       | Some _ => methods
       | None => methods ++ [method]
       end)
    (range_keys (requestHandlers srv))
    [INVITE; ACK; CANCEL].

(** The [autoAppendMethods] table of [prepareRequest]. *)
Definition autoAppendMethods_request : gmap RequestMethod bool :=
  <[INVITE := true]> (<[REGISTER := true]> (<[REFER := true]>
    (<[NOTIFY := true]> ∅))).

Definition prepareRequest {Tx Handler} (srv : Server Tx Handler)
    (req : Request) : Request :=
  let req :=
    match autoAppendMethods_request !! Req.Method req with
    | Some _ =>
        let req :=
          match Req.GetHeaders "Allow" req with
          | [] =>
              Req.AppendHeader
                (GenericHeader "Allow" (Join (getAllowedMethods srv) ", "))
                req
          | _ :: _ => req
          end in
        match Req.GetHeaders "Supported" req with
        | [] => Req.AppendHeader (SupportedHeader (extensions srv)) req
        | _ :: _ => req
        end
    | None => req
    end in
  match Req.GetHeaders "User-Agent" req with
  | [] => Req.AppendHeader (GenericHeader "User-Agent" "GoSIP") req
  | _ :: _ => req
  end.

(** [len(req.GetHeaders(name)) == 0] *)
Definition lacks (name : string) (req : Request) : bool :=
  match Req.GetHeaders name req with
  | [] => true
  | _ :: _ => false
  end.

(** [_, ok := autoAppendMethods[req.Method()]] *)
Definition auto_appended (req : Request) : bool :=
  match autoAppendMethods_request !! Req.Method req with
  | Some _ => true
  | None => false
  end.

(** The [autoAppendMethods] table of [prepareResponse]. *)
Definition autoAppendMethods_response : gmap RequestMethod bool :=
  <[OPTIONS := true]> ∅.

(** [hdrs[0]] asserted to be a [GenericHeader], then
    [allowHeader.Contents = c]. *)
Definition assign_Contents (c : string) (res : Response) : outcome Response :=
  match Res.GetHeaders "Allow" res with
  | GenericHeader _ _ :: _ =>
      Ok (Res.with_headers
            (update_first "Allow"
               (fun h => match h with
                         | GenericHeader n _ => GenericHeader n c
                         | _ => h
                         end)
               (res_headers res))
            res)
  | _ => Panic "interface conversion: sip.Header is not *sip.GenericHeader"
  end.

(** [hdrs[0]] asserted to be a [SupportedHeader], then
    [supportedHeader.Options = o]. *)
Definition assign_Options (o : list string) (res : Response) :
    outcome Response :=
  match Res.GetHeaders "Supported" res with
  | SupportedHeader _ :: _ =>
      Ok (Res.with_headers
            (update_first "Supported"
               (fun h => match h with
                         | SupportedHeader _ => SupportedHeader o
                         | _ => h
                         end)
               (res_headers res))
            res)
  | _ => Panic "interface conversion: sip.Header is not *sip.SupportedHeader"
  end.

Definition prepareResponse {Tx Handler} (srv : Server Tx Handler)
    (res : Response) : outcome Response :=
  match Res.CSeq res with
  | Some (_, MethodName) =>
      let methods := getAllowedMethods srv in
      match autoAppendMethods_response !! MethodName with
      | Some _ =>
          res <-! match Res.GetHeaders "Allow" res with
                  | [] =>
                      Ok (Res.AppendHeader
                            (GenericHeader "Allow" (Join methods ", ")) res)
                  | _ :: _ => assign_Contents (Join methods ", ") res
                  end;
          match Res.GetHeaders "Supported" res with
          | [] => Ok (Res.AppendHeader (SupportedHeader (extensions srv)) res)
          | _ :: _ => assign_Options (extensions srv) res
          end
      | None => Ok res
      end
  | None => Ok res
  end.

(** The two steps of [prepareResponse] on a response to OPTIONS. *)
Definition allow_step (c : string) (res : Response) : outcome Response :=
  match Res.GetHeaders "Allow" res with
  | [] => Ok (Res.AppendHeader (GenericHeader "Allow" c) res)
  | _ :: _ => assign_Contents c res
  end.

Definition supported_step (o : list string) (res : Response) :
    outcome Response :=
  match Res.GetHeaders "Supported" res with
  | [] => Ok (Res.AppendHeader (SupportedHeader o) res)
  | _ :: _ => assign_Options o res
  end.

(** The response's CSeq names OPTIONS. *)
Definition answers_OPTIONS (res : Response) : bool :=
  match Res.CSeq res with
  | Some (_, MethodName) => bool_decide (MethodName = OPTIONS)
  | None => false
  end.

(** The headers are of the types [prepareResponse] asserts: the first Allow
    header, if any, is a [GenericHeader] and the first Supported header, if
    any, a [SupportedHeader]. *)
Definition asserted_types (res : Response) : bool :=
  match Res.GetHeaders "Allow" res with
  | [] | GenericHeader _ _ :: _ => true
  | _ => false
  end
  &&
  match Res.GetHeaders "Supported" res with
  | [] | SupportedHeader _ :: _ => true
  | _ => false
  end.

Definition stopped : string := "can not send through stopped server".

(** [Server.Request]: the error result and the server afterwards. *)
Definition Request {Tx} {L : Transaction.Layer Tx} {Handler}
    (srv : Server Tx Handler) (req : Sip.Request) :
    error * Server Tx Handler :=
  if shuttingDown srv then (Some stopped, srv)
  else
    let '(err, t) := Transaction.Request (prepareRequest srv req) (tx srv) in
    (err, set_tx t srv).

(** [Server.Respond] *)
Definition Respond {Tx} {L : Transaction.Layer Tx} {Handler}
    (srv : Server Tx Handler) (res : Response) :
    outcome (error * Server Tx Handler) :=
  if shuttingDown srv then Ok (Some stopped, srv)
  else
    res <-! prepareResponse srv res;
    let '(err, t) := Transaction.Respond res (tx srv) in
    Ok (err, set_tx t srv).

(** [Server.handleRequest]: the handler calls made, in order, and the
    server afterwards.  What a handler does when called is the
    application's and is not modelled. *)
Definition handleRequest {Tx} {L : Transaction.Layer Tx} {B : ResponseBuilder}
    {Handler}
    (srv : Server Tx Handler) (req : Sip.Request) :
    outcome (list (Handler * Sip.Request) * Server Tx Handler) :=
  match requestHandlers srv !! Req.Method req with
  | Some handlers => Ok (List.map (fun handler => (handler, req)) handlers, srv)
  | None =>
      if Req.IsAck req then Ok ([], srv)
      else
        let res := NewResponseFromRequest req 405 "Method Not Allowed" "" in
        r <-! Respond srv res;
        Ok ([], r.2)
  end.

(** The two variables whose addresses [OnRequest] compares. *)
Inductive variable : Type :=
| var_h
| var_handler.

#[global] Instance variable_eq_dec : EqDecision variable.
Proof. solve_decision. Defined.

(** [for _, h := range handlers { if &h == &handler { return error } }]:
    the addresses of the loop variable and of the parameter. *)
Fixpoint already_binded {Handler} (handlers : list Handler) : bool :=
  match handlers with
  | [] => false
  | _ :: rest =>
      if bool_decide (var_h = var_handler) then true
      else already_binded rest
  end.

(** [Server.OnRequest] *)
Definition OnRequest {Tx Handler} (srv : Server Tx Handler)
    (method : RequestMethod) (handler : Handler) :
    error * Server Tx Handler :=
  let handlers := default [] (requestHandlers srv !! method) in
  if already_binded handlers
  then (Some ("handler already binded to " +:+ method +:+ " method"), srv)
  else
    (None,
     set_requestHandlers
       (<[method := default [] (requestHandlers srv !! method) ++ [handler]]>
          (requestHandlers srv))
       srv).

Definition set_inShutdown {Tx Handler} (n : Z) (srv : Server Tx Handler) :
    Server Tx Handler :=
  mkServer (tx srv) n (requestHandlers srv) (extensions srv).

(** [atomic.AddInt32]: the sum, wrapped to 32 bits. *)
Definition AddInt32 (value delta : Z) : Z :=
  (value + delta + 2 ^ 31) mod 2 ^ 32 - 2 ^ 31.

(** [Server.Shutdown], run to its end beside the transport layer [tp]: the
    counter goes up, the two layers are cancelled and waited for, the
    handlers are waited for, and the deferred call takes the counter down
    again. *)
Definition Shutdown {Tx Tp Handler} {CX : Transaction.Cancellable Tx}
    {CP : Transaction.Cancellable Tp}
    (srv : Server Tx Handler) (tp : Tp) : Server Tx Handler * Tp :=
  if shuttingDown srv then (srv, tp)
  else
    let srv := set_inShutdown (AddInt32 (inShutdown srv) 1) srv in
    let srv := set_tx (Transaction.Cancel (tx srv)) srv in
    let tp := Transaction.Cancel tp in
    let srv := set_inShutdown (AddInt32 (inShutdown srv) (-1)) srv in
    (srv, tp).

(** A run of [OnRequest] calls, in order. *)
Definition register {Tx Handler} (srv : Server Tx Handler)
    (calls : list (RequestMethod * Handler)) : Server Tx Handler :=
  fold_left (fun srv call => (OnRequest srv call.1 call.2).2) calls srv.

(** The handlers those calls gave for one method, in order. *)
Definition registered_for {Handler} (method : RequestMethod)
    (calls : list (RequestMethod * Handler)) : list Handler :=
  List.map snd (List.filter (fun call => bool_decide (call.1 = method)) calls).

End Gosip.

(** ** Package transport: connection.go *)

Module Transport.

(** A [net.Addr] value: its [Network()] and [String()].  An interface value
    of that type may be nil: [option Addr]. *)
Record Addr : Type := mkAddr {
  addr_Network : string;
  addr_String : string
}.

(** [fmt.Sprintf("%v", addr)] *)
Definition fmt_v (a : option Addr) : string :=
  match a with
  | None => "<nil>"
  | Some a => addr_String a
  end.

(** [strings.ToUpper] on the ASCII letters network names are made of. *)
Definition upper (c : ascii) : ascii :=
  let n := nat_of_ascii c in
  if ((97 <=? n) && (n <=? 122))%nat then ascii_of_nat (n - 32) else c.

Fixpoint ToUpper (s : string) : string :=
  match s with
  | EmptyString => EmptyString
  | String c rest => String (upper c) (ToUpper rest)
  end.

(** A lower-case ASCII letter. *)
Definition is_lower (c : ascii) : bool :=
  let n := nat_of_ascii c in ((97 <=? n) && (n <=? 122))%nat.

Fixpoint has_lower (s : string) : bool :=
  match s with
  | EmptyString => false
  | String c rest => is_lower c || has_lower rest
  end.

(** Modelled from the spec: [ConnectionError] is declared outside the
    sources; its six fields are filled positionally in connection.go: the
    cause, the operation, the network, two addresses and the connection's
    rendering.  A Go [error] here is either such a value or an error of the
    socket library, kept as its message. *)
Inductive Error : Type :=
| NetError (msg : string)
| ConnectionError (Err : Error) (Op Net Source Dest ConnPtr : string).

(** [net.Conn], with [net.PacketConn] where the dynamic type has it.  Each
    method is a step on the socket's state [C]; reads return the bytes
    stored into the buffer, whose count is [num]. *)
Class Conn (C : Type) : Type := {
  base_Read : nat -> C -> list byte * option Error * C;
  base_Write : list byte -> C -> Z * option Error * C;
  base_Close : C -> option Error * C;
  base_LocalAddr : C -> option Addr;
  base_RemoteAddr : C -> option Addr;
  base_SetDeadline : Z -> C -> option Error * C;
  base_SetReadDeadline : Z -> C -> option Error * C;
  base_SetWriteDeadline : Z -> C -> option Error * C;
  is_PacketConn : C -> bool;
  base_ReadFrom : nat -> C -> list byte * option Addr * option Error * C;
  base_WriteTo : list byte -> option Addr -> C -> Z * option Error * C
}.

(** Nanoseconds, as [time.Duration]. *)
Definition Second : Z := 1000000000.
Definition readTimeout : Z := 30 * Second.
Definition writeTimeout : Z := 30 * Second.

(** [connection]; [ptr] is the rendering of its address by [%p]. *)
Record connection (C : Type) : Type := mkConnection {
  baseConn : C;
  laddr : option Addr;
  raddr : option Addr;
  streamed : bool;
  ptr : string
}.
Arguments mkConnection {C} _ _ _ _ _.
Arguments baseConn {C} _.
Arguments laddr {C} _.
Arguments raddr {C} _.
Arguments streamed {C} _.
Arguments ptr {C} _.

Definition set_baseConn {C} (b : C) (conn : connection C) : connection C :=
  mkConnection b (laddr conn) (raddr conn) (streamed conn) (ptr conn).

Definition NewConnection `{Conn C} (baseConn : C) (ptr : string) :
    connection C :=
  mkConnection baseConn (base_LocalAddr baseConn) (base_RemoteAddr baseConn)
               (negb (is_PacketConn baseConn)) ptr.

Definition Streamed {C} (conn : connection C) : bool := streamed conn.
Definition LocalAddr {C} (conn : connection C) : option Addr := laddr conn.
Definition RemoteAddr {C} (conn : connection C) : option Addr := raddr conn.

(** [strings.ToUpper(conn.baseConn.LocalAddr().Network())] *)
Definition Network `{Conn C} (conn : connection C) : outcome string :=
  match base_LocalAddr (baseConn conn) with
  | Some a => Ok (ToUpper (addr_Network a))
  | None => Panic "invalid memory address or nil pointer dereference"
  end.

Definition String `{Conn C} (conn : connection C) : outcome string :=
  net <-! Network conn;
  Ok ("Connection " +:+ ptr conn +:+ " (net " +:+ net +:+ ", laddr "
      +:+ fmt_v (LocalAddr conn) +:+ ", raddr " +:+ fmt_v (RemoteAddr conn)
      +:+ ")").

(** [conn.Log()] evaluates [conn.String()] for the log fields; the entry
    written is not modelled. *)
Definition Log `{Conn C} (conn : connection C) : outcome unit :=
  _ <-! String conn; Ok tt.

Definition warn_if `{Conn C} (err : option Error) (conn : connection C) :
    outcome unit :=
  match err with
  | Some _ => Log conn
  | None => Ok tt
  end.

Definition Read `{Conn C} (conn : connection C) (now : Z) (len_buf : nat) :
    outcome (Z * option Error * connection C) :=
  let '(derr, b) := base_SetReadDeadline (now + readTimeout) (baseConn conn) in
  let conn := set_baseConn b conn in
  _ <-! warn_if derr conn;
  let '(data, err, b) := base_Read len_buf (baseConn conn) in
  let conn := set_baseConn b conn in
  let num := Z.of_nat (length data) in
  match err with
  | Some cause =>
      net <-! Network conn;
      s <-! String conn;
      Ok (num,
          Some (ConnectionError cause "read" net (fmt_v (RemoteAddr conn))
                                (fmt_v (LocalAddr conn)) s),
          conn)
  | None => _ <-! Log conn; Ok (num, None, conn)
  end.

Definition not_PacketConn : string :=
  "interface conversion: net.Conn is not net.PacketConn".

Definition ReadFrom `{Conn C} (conn : connection C) (now : Z)
    (len_buf : nat) :
    outcome (Z * option Addr * option Error * connection C) :=
  let '(derr, b) := base_SetReadDeadline (now + readTimeout) (baseConn conn) in
  let conn := set_baseConn b conn in
  _ <-! warn_if derr conn;
  if is_PacketConn (baseConn conn) then
    let '(data, raddr, err, b) := base_ReadFrom len_buf (baseConn conn) in
    let conn := set_baseConn b conn in
    let num := Z.of_nat (length data) in
    match err with
    | Some cause =>
        net <-! Network conn;
        s <-! String conn;
        Ok (num, raddr,
            Some (ConnectionError cause "read" net (fmt_v raddr)
                                  (fmt_v (LocalAddr conn)) s),
            conn)
    | None => _ <-! Log conn; Ok (num, raddr, None, conn)
    end
  else Panic not_PacketConn.

Definition Write `{Conn C} (conn : connection C) (now : Z)
    (buf : list byte) : outcome (Z * option Error * connection C) :=
  let '(derr, b) :=
    base_SetWriteDeadline (now + writeTimeout) (baseConn conn) in
  let conn := set_baseConn b conn in
  _ <-! warn_if derr conn;
  let '(num, err, b) := base_Write buf (baseConn conn) in
  let conn := set_baseConn b conn in
  match err with
  | Some cause =>
      net <-! Network conn;
      s <-! String conn;
      Ok (num,
          Some (ConnectionError cause "write" net (fmt_v (RemoteAddr conn))
                                (fmt_v (LocalAddr conn)) s),
          conn)
  | None => _ <-! Log conn; Ok (num, None, conn)
  end.

Definition WriteTo `{Conn C} (conn : connection C) (now : Z)
    (buf : list byte) (raddr : option Addr) :
    outcome (Z * option Error * connection C) :=
  let '(derr, b) :=
    base_SetWriteDeadline (now + writeTimeout) (baseConn conn) in
  let conn := set_baseConn b conn in
  _ <-! warn_if derr conn;
  if is_PacketConn (baseConn conn) then
    let '(num, err, b) := base_WriteTo buf raddr (baseConn conn) in
    let conn := set_baseConn b conn in
    match err with
    | Some cause =>
        net <-! Network conn;
        s <-! String conn;
        Ok (num,
            Some (ConnectionError cause "write" net (fmt_v raddr)
                                  (fmt_v (LocalAddr conn)) s),
            conn)
    | None => _ <-! Log conn; Ok (num, None, conn)
    end
  else Panic not_PacketConn.

Definition Close `{Conn C} (conn : connection C) :
    outcome (option Error * connection C) :=
  let '(err, b) := base_Close (baseConn conn) in
  let conn := set_baseConn b conn in
  match err with
  | Some cause =>
      net <-! Network conn;
      s <-! String conn;
      Ok (Some (ConnectionError cause "close" net "" "" s), conn)
  | None => _ <-! Log conn; Ok (None, conn)
  end.

Definition SetDeadline `{Conn C} (conn : connection C) (t : Z) :
    option Error * connection C :=
  let '(err, b) := base_SetDeadline t (baseConn conn) in
  (err, set_baseConn b conn).

Definition SetReadDeadline `{Conn C} (conn : connection C) (t : Z) :
    option Error * connection C :=
  let '(err, b) := base_SetReadDeadline t (baseConn conn) in
  (err, set_baseConn b conn).

Definition SetWriteDeadline `{Conn C} (conn : connection C) (t : Z) :
    option Error * connection C :=
  let '(err, b) := base_SetWriteDeadline t (baseConn conn) in
  (err, set_baseConn b conn).

(** *** Two sockets to run the connection on *)

(** A socket of the operating system with a silent peer: once closed, every
    operation, [Close] included, fails with the net package's
    closed-connection error; while open, reads run into the deadline. *)
Record socket : Type := mkSocket {
  sock_packet : bool;
  sock_laddr : option Addr;
  sock_raddr : option Addr;
  sock_closed : bool
}.

Definition ErrNetClosing : Error := NetError "use of closed network connection".
Definition ErrTimeout : Error := NetError "i/o timeout".

Definition sock_close (s : socket) : socket :=
  mkSocket (sock_packet s) (sock_laddr s) (sock_raddr s) true.

Definition sock_check (s : socket) : option Error :=
  if sock_closed s then Some ErrNetClosing else None.

#[global] Instance socket_Conn : Conn socket := {|
  base_Read _ s :=
    ([], Some (if sock_closed s then ErrNetClosing else ErrTimeout), s);
  base_Write buf s :=
    (if sock_closed s then 0 else Z.of_nat (length buf), sock_check s, s);
  base_Close s := (sock_check s, sock_close s);
  base_LocalAddr := sock_laddr;
  base_RemoteAddr := sock_raddr;
  base_SetDeadline _ s := (sock_check s, s);
  base_SetReadDeadline _ s := (sock_check s, s);
  base_SetWriteDeadline _ s := (sock_check s, s);
  is_PacketConn := sock_packet;
  base_ReadFrom _ s :=
    ([], None, Some (if sock_closed s then ErrNetClosing else ErrTimeout), s);
  base_WriteTo buf _ s :=
    (if sock_closed s then 0 else Z.of_nat (length buf), sock_check s, s)
|}.

(** One end of an in-memory pipe, as the test helpers use: closing it any
    number of times returns nil. *)
Record pipe_end : Type := mkPipeEnd {
  pipe_closed : bool
}.

Definition pipe_addr : option Addr := Some (mkAddr "pipe" "pipe").
Definition ErrClosedPipe : Error := NetError "io: read/write on closed pipe".

Definition pipe_check (p : pipe_end) : option Error :=
  if pipe_closed p then Some ErrClosedPipe else None.

#[global] Instance pipe_Conn : Conn pipe_end := {|
  base_Read _ p :=
    ([], Some (if pipe_closed p then ErrClosedPipe else ErrTimeout), p);
  base_Write buf p :=
    (0, Some (if pipe_closed p then ErrClosedPipe else ErrTimeout), p);
  base_Close _ := (None, mkPipeEnd true);
  base_LocalAddr _ := pipe_addr;
  base_RemoteAddr _ := pipe_addr;
  base_SetDeadline _ p := (pipe_check p, p);
  base_SetReadDeadline _ p := (pipe_check p, p);
  base_SetWriteDeadline _ p := (pipe_check p, p);
  is_PacketConn _ := false;
  base_ReadFrom _ p := ([], None, Some ErrClosedPipe, p);
  base_WriteTo _ _ p := (0, Some ErrClosedPipe, p)
|}.

(** The panic of a method call on a nil interface value. *)
Definition nil_dereference : string :=
  "invalid memory address or nil pointer dereference".

(** What [LocalAddr], [RemoteAddr] and [Streamed] answer, and the
    connection's address. *)
Definition identity {C} (conn : connection C) :
    option Addr * option Addr * bool * string :=
  (LocalAddr conn, RemoteAddr conn, Streamed conn, ptr conn).

End Transport.

(** ** Package transport: protocol.go *)

Module Protocol.

(** [protocol] *)
Record protocol : Type := mkProtocol {
  network : string;
  reliable : bool;
  streamed : bool
}.

Definition Network (pr : protocol) : string := Transport.ToUpper (network pr).
Definition Reliable (pr : protocol) : bool := reliable pr.
Definition Streamed (pr : protocol) : bool := streamed pr.

(** [String]; [ptr] is the rendering of the receiver by [%p], [None] a nil
    receiver. *)
Definition String (pr : option (string * protocol)) : string :=
  match pr with
  | None => "Protocol <nil>"
  | Some (ptr, pr) => "Protocol " +:+ ptr +:+ " (net " +:+ Network pr +:+ ")"
  end.

End Protocol.

(** ** Package parser: parserbuffer.go *)

Module Parser.

(** The read side of [parserBuffer]: [pb.reader] is a [bufio.Reader] over
    the read end of an [io.Pipe].  [buffered] is what the bufio reader holds
    unread, [pending] the writes waiting on the pipe, oldest first (a write
    stays until all its bytes are taken; a write of no bytes is delivered
    once), [done] the pipe's error once it has been closed. *)
Record parserBuffer : Type := mkParserBuffer {
  buffered : list byte;
  pending : list (list byte);
  done : option string
}.

(** The size of a [bufio.NewReader] buffer. *)
Definition defaultBufSize : nat := 4096.

(** What a [Read] call does: it returns [n = length data] bytes with a nil
    error, or no byte with an error, or it waits for a writer. *)
Inductive read_result : Type :=
| ReadOk (data : list byte) (pb : parserBuffer)
| ReadErr (err : string) (pb : parserBuffer)
| ReadBlocks.

(** [io.PipeReader.Read] into a slice of [room] bytes. *)
Definition pipe_Read (room : nat) (pb : parserBuffer) : read_result :=
  match done pb with
  | Some err => ReadErr err pb
  | None =>
      match pending pb with
      | [] => ReadBlocks
      | w :: rest =>
          ReadOk (take room w)
                 (mkParserBuffer (buffered pb)
                    (match drop room w with
                     | [] => rest
                     | remainder => remainder :: rest
                     end)
                    None)
      end
  end.

(** [bufio.Reader.Read] into a slice of [len_p] bytes: from the buffer when
    it holds something, else by one read of the pipe, straight into the
    slice when that is at least as large as the buffer.  The pipe returns an
    error only together with no byte, so the reader's pending error is
    handed out by the call that met it and is never kept between calls. *)
Definition reader_Read (len_p : nat) (pb : parserBuffer) : read_result :=
  match len_p with
  | O => ReadOk [] pb
  | S _ =>
      match buffered pb with
      | [] =>
          if (defaultBufSize <=? len_p)%nat then pipe_Read len_p pb
          else
            match pipe_Read defaultBufSize pb with
            | ReadOk [] pb => ReadOk [] pb
            | ReadOk data pb =>
                ReadOk (take len_p data)
                       (mkParserBuffer (drop len_p data) (pending pb) (done pb))
            | r => r
            end
      | b =>
          ReadOk (take len_p b)
                 (mkParserBuffer (drop len_p b) (pending pb) (done pb))
      end
  end.

(** [pb.reader.Read(data[total:])] storing what was read at [total]. *)
Definition store (data : list byte) (total : nat) (d : list byte) :
    list byte :=
  take total data ++ d ++ drop (total + length d) data.

(** How a call of [NextChunk] ends. *)
Inductive chunk_result : Type :=
| Returned (response : list byte) (err : option string) (pb : parserBuffer)
| Blocked
| Panicked (msg : string).

(** The loop [for total := 0; total < n; { ... }]; one unit of [fuel] per
    iteration. *)
Fixpoint NextChunk_loop (fuel : nat) (n : nat) (data : list byte)
    (total : nat) (pb : parserBuffer) : option chunk_result :=
  if (n <=? total)%nat then Some (Returned data None pb)
  else
    match fuel with
    | O => None
    | S fuel =>
        match reader_Read (length (drop total data)) pb with
        | ReadOk d pb =>
            NextChunk_loop fuel n (store data total d) (total + length d) pb
        | ReadErr err pb => Some (Returned [] (Some err) pb)
        | ReadBlocks => Some Blocked
        end
    end.

(** Iterations that are always enough: every one either stores a byte or
    uses up a pending write. *)
Definition iterations (n : nat) (pb : parserBuffer) : nat :=
  n + length (pending pb).

(** [parserBuffer.NextChunk]; [None] only if the iterations did not
    suffice. *)
Definition NextChunk (pb : parserBuffer) (n : Z) : option chunk_result :=
  if n <? 0 then Some (Panicked "makeslice: len out of range")
  else
    let data := replicate (Z.to_nat n) x00 in
    NextChunk_loop (iterations (Z.to_nat n) pb) (Z.to_nat n) data 0 pb.

(** The bytes a reader of [pb] can still get, in order. *)
Definition stream (pb : parserBuffer) : list byte :=
  buffered pb ++
  match done pb with
  | Some _ => []
  | None => List.concat (pending pb)
  end.

(** [io.ErrClosedPipe] *)
Definition ErrClosedPipe : string := "io: read/write on closed pipe".

(** [newParserBuffer]: an open pipe, nothing written, nothing buffered. *)
Definition newParserBuffer : parserBuffer := mkParserBuffer [] [] None.

(** [parserBuffer.Write], the embedded pipe writer's: on a closed pipe the
    call fails; on an open one the bytes wait on the pipe (and the writer
    with them) until the reader has taken them all. *)
Definition Write (data : list byte) (pb : parserBuffer) :
    option string * parserBuffer :=
  match done pb with
  | Some _ => (Some ErrClosedPipe, pb)
  | None =>
      (None, mkParserBuffer (buffered pb) (pending pb ++ [data]) None)
  end.

(** [parserBuffer.Stop]: the read end is closed; reads of the pipe fail from
    then on with [io.ErrClosedPipe]. *)
Definition Stop (pb : parserBuffer) : parserBuffer :=
  mkParserBuffer (buffered pb) (pending pb) (Some ErrClosedPipe).

(** A run of [Write] calls. *)
Definition Write_all (writes : list (list byte)) (pb : parserBuffer) :
    parserBuffer :=
  fold_left (fun pb data => (Write data pb).2) writes pb.

(** [io.ErrNoProgress] *)
Definition ErrNoProgress : string :=
  "multiple Read calls return no data or error".

Definition maxConsecutiveEmptyReads : nat := 100.

Definition CR : byte := "013"%byte.
Definition LF : byte := "010"%byte.

(** How [bufio.Reader.fill] ends: with new bytes in the buffer, with the
    reader's pending error set, or waiting on the pipe. *)
Inductive fill_result : Type :=
| Filled (pb : parserBuffer)
| FillErr (err : string) (pb : parserBuffer)
| FillBlocks.

(** The loop of [bufio.Reader.fill]: reads of the pipe into the free end of
    the buffer until one brings a byte or an error, a hundred of them at
    most. *)
Fixpoint fill_loop (i : nat) (pb : parserBuffer) : fill_result :=
  match i with
  | O => FillErr ErrNoProgress pb
  | S i =>
      match pipe_Read (defaultBufSize - length (buffered pb)) pb with
      | ReadOk [] pb => fill_loop i pb
      | ReadOk d pb =>
          Filled (mkParserBuffer (buffered pb ++ d) (pending pb) (done pb))
      | ReadErr err pb => FillErr err pb
      | ReadBlocks => FillBlocks
      end
  end.

Definition fill (pb : parserBuffer) : fill_result :=
  fill_loop maxConsecutiveEmptyReads pb.

(** [bytes.IndexByte] *)
Fixpoint IndexByte (s : list byte) (c : byte) : option nat :=
  match s with
  | [] => None
  | b :: s => if Byte.eqb b c then Some O else S <$> IndexByte s c
  end.

(** How [bufio.Reader.ReadSlice] ends: with a line that ends in the
    delimiter, with a full buffer ([bufio.ErrBufferFull]), with what was
    buffered and the pipe's error, or waiting on the pipe. *)
Inductive slice_result : Type :=
| SliceOk (line : list byte) (pb : parserBuffer)
| SliceFull (line : list byte) (pb : parserBuffer)
| SliceErr (line : list byte) (err : string) (pb : parserBuffer)
| SliceBlocks.

(** The loop of [bufio.Reader.ReadSlice]; [s] is the search start index,
    one unit of [fuel] per [fill].  After a [fill] that set the pending
    error the search finds nothing new and the error is handed out. *)
Fixpoint ReadSlice_loop (fuel : nat) (delim : byte) (s : nat)
    (pb : parserBuffer) : option slice_result :=
  match IndexByte (drop s (buffered pb)) delim with
  | Some i =>
      let i := (i + s)%nat in
      Some (SliceOk (take (i + 1) (buffered pb))
              (mkParserBuffer (drop (i + 1) (buffered pb)) (pending pb)
                 (done pb)))
  | None =>
      if (defaultBufSize <=? length (buffered pb))%nat then
        Some (SliceFull (buffered pb)
                (mkParserBuffer [] (pending pb) (done pb)))
      else
        match fuel with
        | O => None
        | S fuel =>
            match fill pb with
            | Filled pb' =>
                ReadSlice_loop fuel delim (length (buffered pb)) pb'
            | FillErr err pb' =>
                Some (SliceErr (buffered pb') err
                        (mkParserBuffer [] (pending pb') (done pb')))
            | FillBlocks => Some SliceBlocks
            end
        end
  end.

(** [bufio.Reader.ReadSlice]: every [fill] adds a byte to a buffer that is
    not full, so as many as the buffer has room for are enough. *)
Definition ReadSlice (delim : byte) (pb : parserBuffer) :
    option slice_result :=
  ReadSlice_loop defaultBufSize delim 0 pb.

(** How [bufio.Reader.ReadString] ends. *)
Inductive string_result : Type :=
| StringRead (data : list byte) (err : option string) (pb : parserBuffer)
| StringBlocks.

(** [bufio.Reader.collectFragments], the full buffers and the final
    fragment already joined as [ReadString] joins them; one unit of [fuel]
    per full buffer. *)
Fixpoint collectFragments (fuel : nat) (delim : byte) (full : list byte)
    (pb : parserBuffer) : option string_result :=
  match ReadSlice delim pb with
  | None => None
  | Some (SliceOk frag pb) => Some (StringRead (full ++ frag) None pb)
  | Some (SliceErr frag err pb) =>
      Some (StringRead (full ++ frag) (Some err) pb)
  | Some (SliceFull frag pb) =>
      match fuel with
      | O => None
      | S fuel => collectFragments fuel delim (full ++ frag) pb
      end
  | Some SliceBlocks => Some StringBlocks
  end.

(** The bytes written and not yet handed out. *)
Definition waiting (pb : parserBuffer) : nat :=
  length (buffered pb) + length (List.concat (pending pb)).

(** [bufio.Reader.ReadString] *)
Definition ReadString (delim : byte) (pb : parserBuffer) :
    option string_result :=
  collectFragments (waiting pb) delim [] pb.

(** How [bufio.Reader.ReadByte] ends. *)
Inductive byte_result : Type :=
| ByteRead (b : byte) (pb : parserBuffer)
| ByteErr (err : string) (pb : parserBuffer)
| ByteBlocks.

(** The loop [for b.r == b.w] of [bufio.Reader.ReadByte]. *)
Fixpoint ReadByte_loop (fuel : nat) (pb : parserBuffer) :
    option byte_result :=
  match buffered pb with
  | b :: rest =>
      Some (ByteRead b (mkParserBuffer rest (pending pb) (done pb)))
  | [] =>
      match fuel with
      | O => None
      | S fuel =>
          match fill pb with
          | Filled pb' => ReadByte_loop fuel pb'
          | FillErr err pb' => Some (ByteErr err pb')
          | FillBlocks => Some ByteBlocks
          end
      end
  end.

(** [bufio.Reader.ReadByte]: one [fill] is enough. *)
Definition ReadByte (pb : parserBuffer) : option byte_result :=
  ReadByte_loop 1 pb.

(** How a call of [NextLine] ends. *)
Inductive line_result : Type :=
| LineReturned (response : list byte) (err : option string)
    (pb : parserBuffer)
| LineBlocked.

(** The loop of [NextLine]; [buffer] is its local [bytes.Buffer], one unit
    of [fuel] per iteration. *)
Fixpoint NextLine_loop (fuel : nat) (buffer : list byte)
    (pb : parserBuffer) : option line_result :=
  match fuel with
  | O => None
  | S fuel =>
      match ReadString CR pb with
      | None => None
      | Some StringBlocks => Some LineBlocked
      | Some (StringRead _ (Some err) pb) =>
          Some (LineReturned [] (Some err) pb)
      | Some (StringRead data None pb) =>
          let buffer := buffer ++ data in
          match ReadByte pb with
          | None => None
          | Some ByteBlocks => Some LineBlocked
          | Some (ByteErr err pb) => Some (LineReturned [] (Some err) pb)
          | Some (ByteRead b pb) =>
              let buffer := buffer ++ [b] in
              if Byte.eqb b LF then
                Some (LineReturned (take (length buffer - 2) buffer) None pb)
              else NextLine_loop fuel buffer pb
          end
      end
  end.

(** [parserBuffer.NextLine]; every iteration that does not return takes at
    least two of the waiting bytes. *)
Definition NextLine (pb : parserBuffer) : option line_result :=
  NextLine_loop (S (waiting pb)) [] pb.

(** The empty writes waiting on the pipe. *)
Definition empty_writes (pb : parserBuffer) : nat :=
  length (filter (fun w => w = []) (pending pb)).

(** What [bufio] keeps of its buffer: it never holds more than its size. *)
Definition within_size (pb : parserBuffer) : Prop :=
  (length (buffered pb) <= defaultBufSize)%nat.

End Parser.

(** ** Package testutils: mocks.go *)

Module Testutils.
Import Transport.

(** [MockConn]: an embedded [net.Conn] and two addresses that may be nil. *)
Record MockConn (C : Type) : Type := mkMockConn {
  Conn : C;
  LAddr : option Addr;
  RAddr : option Addr
}.
Arguments mkMockConn {C} _ _ _.
Arguments Conn {C} _.
Arguments LAddr {C} _.
Arguments RAddr {C} _.

Definition LocalAddr `{Transport.Conn C} (conn : MockConn C) : option Addr :=
  match LAddr conn with
  | None => base_LocalAddr (Conn conn)
  | Some a => Some a
  end.

(** [MockConn.RemoteAddr]; the call in its first branch is to the method
    itself.  [depth] bounds the nested calls, [None] says the outermost one
    has not returned within that bound. *)
Fixpoint RemoteAddr {C} (depth : nat) (conn : MockConn C) :
    option (option Addr) :=
  match depth with
  | O => None
  | S depth =>
      match RAddr conn with
      | None => RemoteAddr depth conn
      | Some a => Some (Some a)
      end
  end.

(** [close(ch)]: what counts of a channel here is whether it was closed;
    closing it again panics. *)
Definition close_chan (closed : bool) : outcome bool :=
  if closed then Panic "close of closed channel" else Ok true.

(** [MockListener]; [closed] says whether the channel of that name was
    closed. *)
Record MockListener : Type := mkMockListener {
  addr : option Addr;
  closed : bool
}.

Definition NewMockListener (addr : option Addr) : MockListener :=
  mkMockListener addr false.

(** [net.OpError] *)
Record OpError : Type := mkOpError {
  Op : string;
  Net : string;
  Source : option Addr;
  OpAddr : option Addr;
  Err : string
}.

(** [MockListener.Close]: the deferred [recover()] stops the panic of
    closing a closed channel, and the unnamed result is nil then as well. *)
Definition Close (ls : MockListener) : option OpError * MockListener :=
  match close_chan (closed ls) with
  | Ok c => (None, mkMockListener (addr ls) c)
  | Panic _ => (None, ls)
  end.

(** How [Dial] goes on: it fails, or it offers the server end of a new pipe
    on [ls.connections] and returns the client end once that was
    accepted. *)
Inductive dial_result : Type :=
| DialFailed (err : OpError)
| DialOffered (server client : MockConn pipe_end).

(** [MockListener.Dial] *)
Definition Dial (ls : MockListener) (network : string)
    (a : option Addr) : outcome dial_result :=
  if closed ls then
    match a with
    | None => Panic nil_dereference
    | Some to =>
        Ok (DialFailed
              (mkOpError "dial" (addr_Network to) (addr ls) a
                 "listener closed"))
    end
  else
    let server := mkPipeEnd false in
    let client := mkPipeEnd false in
    Ok (DialOffered (mkMockConn server a (base_RemoteAddr server))
                    (mkMockConn client (base_LocalAddr client) a)).

(** [MockTransportLayer]: its four channels, each by whether it was
    closed. *)
Record MockTransportLayer : Type := mkMockTransportLayer {
  InMsgs : bool;
  InErrs : bool;
  OutMsgs : bool;
  done : bool
}.

Definition NewMockTransportLayer : MockTransportLayer :=
  mkMockTransportLayer false false false false.

(** [MockTransportLayer.Cancel] *)
Definition Cancel (tpl : MockTransportLayer) : outcome MockTransportLayer :=
  in_msgs <-! close_chan (InMsgs tpl);
  in_errs <-! close_chan (InErrs tpl);
  out_msgs <-! close_chan (OutMsgs tpl);
  done <-! close_chan (done tpl);
  Ok (mkMockTransportLayer in_msgs in_errs out_msgs done).

End Testutils.

(** ** Sample values *)

Module Sample.
Import Sip Gosip.

(** A server as [NewServer(nil)] leaves it, over the recording layer, with
    numbered handlers. *)
Definition fresh : Server (list Transaction.handoff) nat :=
  mkServer [] 0 ∅ [].

(** The same server while [Shutdown] is waiting for the layers to stop. *)
Definition stopping : Server (list Transaction.handoff) nat :=
  mkServer [] 1 ∅ [].

(** A server with a MESSAGE handler and one extension. *)
Definition messaging : Server (list Transaction.handoff) nat :=
  mkServer [] 0 (<["MESSAGE" := [7%nat]]> ∅) ["100rel"].

Definition dialog_headers (method : RequestMethod) : list Header :=
  [OtherHeader "Via" "SIP/2.0/UDP 127.0.0.1:9001;branch=z9hG4bK-abc";
   OtherHeader "From" "<sip:alice@wonderland.com>;tag=1928301774";
   OtherHeader "To" "<sip:bob@far-far-away.com>";
   OtherHeader "Call-ID" "abc@127.0.0.1";
   CSeq 1 method].

Definition bye : Sip.Request :=
  mkRequest "BYE" "sip:bob@example.com" (dialog_headers "BYE") "".

Definition options : Sip.Request :=
  mkRequest OPTIONS "sip:bob@example.com" (dialog_headers OPTIONS) "".

Definition invite : Sip.Request :=
  mkRequest INVITE "sip:bob@example.com" (dialog_headers INVITE) "".

(** An INVITE that already has the three headers [prepareRequest] looks
    for. *)
Definition invite_complete : Sip.Request :=
  mkRequest INVITE "sip:bob@example.com"
    (dialog_headers INVITE
     ++ [GenericHeader "Allow" "INVITE, ACK, BYE"; SupportedHeader ["timer"];
         GenericHeader "User-Agent" "softphone/1.0"])
    "".

(** The 200 OK a handler builds for [options]. *)
Definition options_ok : Response :=
  NewResponseFromRequest (B := transaction_headers) options 200 "OK" "".

(** [options_ok] as [prepareResponse] returns it on [messaging]. *)
Definition options_ok_prepared : Response :=
  mkResponse 200 "OK"
    (dialog_headers OPTIONS
     ++ [GenericHeader "Allow" "INVITE, ACK, CANCEL, MESSAGE";
         SupportedHeader ["100rel"]])
    "".

(** A 200 OK to [options] whose Supported header was added by name, as a
    generic header. *)
Definition options_ok_generic_Supported : Response :=
  mkResponse 200 "OK"
    (dialog_headers OPTIONS ++ [GenericHeader "Supported" "100rel"]) "".

(** One end of an in-memory pipe and its connection. *)
Definition pipe_conn : Transport.connection Transport.pipe_end :=
  Transport.NewConnection (Transport.mkPipeEnd false) "0xc000020000".

Definition pipe_conn_closed : Transport.connection Transport.pipe_end :=
  Transport.set_baseConn (Transport.mkPipeEnd true) pipe_conn.

(** A listener of the test helpers, open. *)
Definition listener : Testutils.MockListener :=
  Testutils.NewMockListener (Some (Transport.mkAddr "tcp" "127.0.0.1:5060")).

(** A layer whose state shows no trace of having been cancelled. *)
Definition traceless {T : Type} : Transaction.Cancellable T :=
  {| Transaction.Cancel t := t |}.

(** A TCP socket of the server, its connection, and the connection once
    closed. *)
Definition server_addr : Transport.Addr :=
  Transport.mkAddr "tcp" "127.0.0.1:5060".
Definition client_addr : Transport.Addr :=
  Transport.mkAddr "tcp" "127.0.0.1:9001".

Definition tcp_socket : Transport.socket :=
  Transport.mkSocket false (Some server_addr) (Some client_addr) false.

Definition tcp_conn : Transport.connection Transport.socket :=
  Transport.NewConnection tcp_socket "0xc000010000".

Definition tcp_conn_closed : Transport.connection Transport.socket :=
  Transport.set_baseConn (Transport.sock_close tcp_socket) tcp_conn.

Definition tcp_conn_String : string :=
  "Connection 0xc000010000 (net TCP, laddr 127.0.0.1:5060, raddr 127.0.0.1:9001)".

(** A UDP socket of the server: one socket for all peers, no remote
    address. *)
Definition udp_socket : Transport.socket :=
  Transport.mkSocket true (Some (Transport.mkAddr "udp" "0.0.0.0:5060")) None
                     false.

Definition udp_conn : Transport.connection Transport.socket :=
  Transport.NewConnection udp_socket "0xc000010040".

(** A connection on a socket that reports no addresses. *)
Definition unbound_conn : Transport.connection Transport.socket :=
  Transport.NewConnection (Transport.mkSocket false None None false)
                          "0xc000010080".

(** The protocol of the TCP sockets. *)
Definition tcp : Protocol.protocol := Protocol.mkProtocol "tcp" true true.

(** A parser buffer that holds one byte and has three writes waiting, the
    first of them empty. *)
Definition fed : Parser.parserBuffer :=
  Parser.mkParserBuffer ["v"%byte]
    [[]; ["="%byte; "0"%byte]; ["013"%byte; "010"%byte]] None.

(** The same buffer after [Stop]. *)
Definition fed_stopped : Parser.parserBuffer := Parser.Stop fed.

(** A buffer that holds the start of a line; more of it is waiting, its end
    is not written yet. *)
Definition started : Parser.parserBuffer :=
  Parser.mkParserBuffer ["v"%byte] [["="%byte; "0"%byte]] None.

(** A line that ends in CR CR LF, a second line and the start of a
    third. *)
Definition doubled_CR : Parser.parserBuffer :=
  Parser.mkParserBuffer ["a"%byte; Parser.CR]
    [[Parser.CR; Parser.LF];
     ["b"%byte; Parser.CR; Parser.LF];
     ["c"%byte]]
    None.

(** A line and a body of two bytes, the CR LF between them cut in two by
    the writes. *)
Definition message : Parser.parserBuffer :=
  Parser.mkParserBuffer []
    [["a"%byte; Parser.CR]; [Parser.LF; "h"%byte; "i"%byte; "!"%byte]] None.

End Sample.

(** * Properties *)

(** ** The message model *)

Section Headers.
Import Sip.

Lemma named_true name h : named name h = true <-> Name h = name.
Proof. unfold named. apply bool_decide_eq_true. Qed.

Lemma named_false name h : named name h = false <-> Name h <> name.
Proof. unfold named. apply bool_decide_eq_false. Qed.

Lemma headers_named_app name hs1 hs2 :
  headers_named name (hs1 ++ hs2)
  = headers_named name hs1 ++ headers_named name hs2.
Proof. unfold headers_named. apply List.filter_app. Qed.

Lemma headers_named_append_other name h hs :
  Name h <> name ->
  headers_named name (append_header h hs) = headers_named name hs.
Proof.
  intros Hne. unfold append_header. rewrite headers_named_app. simpl.
  apply named_false in Hne. rewrite Hne. apply app_nil_r.
Qed.

Lemma headers_named_append_same name h hs :
  Name h = name ->
  headers_named name (append_header h hs) = headers_named name hs ++ [h].
Proof.
  intros He. unfold append_header. rewrite headers_named_app. simpl.
  apply named_true in He. now rewrite He.
Qed.

(** Assigning through the pointer to the first header of a name changes the
    head of what the accessor returns for that name. *)
Lemma headers_named_update_first_same name f hs :
  (forall h, Name (f h) = Name h) ->
  headers_named name (update_first name f hs)
  = match headers_named name hs with
    | [] => []
    | h :: rest => f h :: rest
    end.
Proof.
  intros Hf. induction hs as [|h hs IH]; simpl; [reflexivity|].
  destruct (named name h) eqn:E; simpl.
  - assert (named name (f h) = true) as ->; [|reflexivity].
    apply named_true. rewrite Hf. now apply named_true.
  - rewrite E. exact IH.
Qed.

(** ... and nothing of what it returns for another name. *)
Lemma headers_named_update_first_other name name' f hs :
  name <> name' ->
  (forall h, Name (f h) = Name h) ->
  headers_named name (update_first name' f hs) = headers_named name hs.
Proof.
  intros Hne Hf. induction hs as [|h hs IH]; simpl; [reflexivity|].
  destruct (named name' h) eqn:E; simpl.
  - apply named_true in E.
    assert (named name h = false) as ->
      by (apply named_false; congruence).
    assert (named name (f h) = false) as ->
      by (apply named_false; rewrite Hf; congruence).
    reflexivity.
  - now rewrite IH.
Qed.

End Headers.

(** ** The allowed methods *)

Section AllowedMethods.
Import Sip Gosip.
Context {Tx Handler : Type}.
Implicit Types (srv : Server Tx Handler) (m : RequestMethod).

Lemma elem_of_list3 m (a b c : RequestMethod) :
  m ∈ [a; b; c] <-> m = a \/ m = b \/ m = c.
Proof. rewrite !elem_of_cons, elem_of_nil. intuition. Qed.

Lemma elem_of_list4 m (a b c d : RequestMethod) :
  m ∈ [a; b; c; d] <-> m = a \/ m = b \/ m = c \/ m = d.
Proof. rewrite !elem_of_cons, elem_of_nil. intuition. Qed.

Lemma added_None m :
  added !! m = None <-> m <> INVITE /\ m <> ACK /\ m <> CANCEL.
Proof.
  unfold added. rewrite !lookup_insert_None, lookup_empty. intuition.
Qed.

Lemma added_Some m :
  is_Some (added !! m) <-> m = INVITE \/ m = ACK \/ m = CANCEL.
Proof.
  rewrite <- not_eq_None_Some, added_None.
  destruct (decide (m = INVITE)), (decide (m = ACK)), (decide (m = CANCEL));
    intuition.
Qed.

(** The loop appends, in range order, the keys that are not in [added]. *)
Lemma getAllowedMethods_unfold srv :
  getAllowedMethods srv
  = [INVITE; ACK; CANCEL]
    ++ filter (fun m => added !! m = None) (range_keys (requestHandlers srv)).
Proof.
  unfold getAllowedMethods.
  generalize (range_keys (requestHandlers srv)) as keys.
  generalize [INVITE; ACK; CANCEL] as methods.
  intros methods keys. revert methods.
  induction keys as [|k keys IH]; intros methods; simpl.
  - now rewrite app_nil_r.
  - rewrite IH. rewrite filter_cons.
    destruct (added !! k) eqn:E.
    + rewrite decide_False by congruence. reflexivity.
    + rewrite decide_True by reflexivity. now rewrite <- app_assoc.
Qed.

Lemma range_keys_elem (t : gmap RequestMethod (list Handler)) m :
  m ∈ range_keys t <-> is_Some (t !! m).
Proof.
  unfold range_keys. rewrite list_elem_of_fmap. split.
  - intros [[k v] [-> Hin]]. apply elem_of_map_to_list in Hin. now exists v.
  - intros [v Hv]. exists (m, v). split; [reflexivity|].
    now apply elem_of_map_to_list.
Qed.

Lemma range_keys_NoDup (t : gmap RequestMethod (list Handler)) :
  NoDup (range_keys t).
Proof. apply NoDup_fst_map_to_list. Qed.

Lemma getAllowedMethods_elem srv m :
  m ∈ getAllowedMethods srv
  <-> is_Some (requestHandlers srv !! m) \/ m ∈ [INVITE; ACK; CANCEL].
Proof.
  rewrite getAllowedMethods_unfold, elem_of_app, list_elem_of_filter.
  rewrite range_keys_elem, added_None.
  rewrite elem_of_list3.
  destruct (decide (m = INVITE)), (decide (m = ACK)), (decide (m = CANCEL));
    intuition.
Qed.

Lemma getAllowedMethods_NoDup srv : NoDup (getAllowedMethods srv).
Proof.
  rewrite getAllowedMethods_unfold. apply NoDup_app. split; [|split].
  - compute_done.
  - intros m Hm Hf. apply list_elem_of_filter in Hf as [Hf _].
    apply added_None in Hf. apply elem_of_list3 in Hm. intuition.
  - apply NoDup_filter, range_keys_NoDup.
Qed.

Lemma autoAppendMethods_response_Some m :
  is_Some (autoAppendMethods_response !! m) <-> m = OPTIONS.
Proof.
  unfold autoAppendMethods_response. rewrite lookup_insert_is_Some.
  rewrite lookup_empty. split.
  - intros [H|[_ [x Hx]]]; [auto | discriminate].
  - auto.
Qed.

Lemma autoAppendMethods_request_Some m :
  is_Some (autoAppendMethods_request !! m)
  <-> m ∈ [INVITE; REGISTER; REFER; NOTIFY].
Proof.
  unfold autoAppendMethods_request. rewrite !lookup_insert_is_Some.
  rewrite lookup_empty.
  rewrite elem_of_list4. split.
  - intros [H|[_ [H|[_ [H|[_ [H|[_ [x Hx]]]]]]]]]; auto; discriminate.
  - destruct (decide (INVITE = m)), (decide (REGISTER = m)),
      (decide (REFER = m)), (decide (NOTIFY = m)); intuition.
Qed.

End AllowedMethods.

(** ** Preparing a response *)

Section PrepareResponse.
Import Sip Gosip.
Context {Tx Handler : Type}.
Implicit Types (srv : Server Tx Handler) (res : Response).

Lemma headers_named_head name hs h rest :
  headers_named name hs = h :: rest -> Name h = name.
Proof.
  intros E. apply named_true.
  assert (List.In h (headers_named name hs)) as Hin by (rewrite E; now left).
  unfold headers_named in Hin. now apply List.filter_In in Hin.
Qed.

Lemma prepareResponse_steps srv res :
  prepareResponse srv res
  = if answers_OPTIONS res
    then res1 <-! allow_step (Join (getAllowedMethods srv) ", ") res;
         supported_step (extensions srv) res1
    else Ok res.
Proof.
  unfold prepareResponse, answers_OPTIONS.
  destruct (Res.CSeq res) as [[seq m]|]; [|reflexivity].
  destruct (autoAppendMethods_response !! m) eqn:E.
  - assert (m = OPTIONS) as ->
      by (apply autoAppendMethods_response_Some; eauto).
    rewrite bool_decide_eq_true_2 by reflexivity. reflexivity.
  - rewrite bool_decide_eq_false_2; [reflexivity|].
    intros ->. apply eq_None_not_Some in E. apply E.
    now apply autoAppendMethods_response_Some.
Qed.

(** A response whose CSeq does not name OPTIONS is handed on as it is. *)
Lemma prepareResponse_other srv res :
  answers_OPTIONS res = false -> prepareResponse srv res = Ok res.
Proof. intros H. rewrite prepareResponse_steps. now rewrite H. Qed.

Lemma allow_step_Ok c res :
  match Res.GetHeaders "Allow" res with
  | [] | GenericHeader _ _ :: _ => true
  | _ => false
  end = true ->
  exists res1,
    allow_step c res = Ok res1
    /\ head (Res.GetHeaders "Allow" res1) = Some (GenericHeader "Allow" c)
    /\ Res.GetHeaders "Supported" res1 = Res.GetHeaders "Supported" res
    /\ res_status res1 = res_status res
    /\ res_reason res1 = res_reason res
    /\ res_body res1 = res_body res.
Proof.
  unfold allow_step, assign_Contents.
  destruct (Res.GetHeaders "Allow" res) as [|[n c0|o|q m|n v] rest] eqn:E;
    try discriminate; intros _; eexists; (split; [reflexivity|]).
  - unfold Res.GetHeaders, Res.AppendHeader in *; simpl.
    rewrite headers_named_append_same by reflexivity.
    rewrite E. rewrite headers_named_append_other by discriminate. auto.
  - unfold Res.GetHeaders, Res.with_headers in *; simpl.
    rewrite headers_named_update_first_same by (now intros []).
    rewrite E. apply headers_named_head in E. simpl in E. subst n.
    rewrite headers_named_update_first_other;
      [auto | discriminate | now intros []].
Qed.

Lemma supported_step_Ok o res :
  match Res.GetHeaders "Supported" res with
  | [] | SupportedHeader _ :: _ => true
  | _ => false
  end = true ->
  exists res2,
    supported_step o res = Ok res2
    /\ head (Res.GetHeaders "Supported" res2) = Some (SupportedHeader o)
    /\ Res.GetHeaders "Allow" res2 = Res.GetHeaders "Allow" res
    /\ res_status res2 = res_status res
    /\ res_reason res2 = res_reason res
    /\ res_body res2 = res_body res.
Proof.
  unfold supported_step, assign_Options.
  destruct (Res.GetHeaders "Supported" res) as [|[n c0|o0|q m|n v] rest] eqn:E;
    try discriminate; intros _; eexists; (split; [reflexivity|]).
  - unfold Res.GetHeaders, Res.AppendHeader in *; simpl.
    rewrite headers_named_append_same by reflexivity.
    rewrite E. rewrite headers_named_append_other by discriminate. auto.
  - unfold Res.GetHeaders, Res.with_headers in *; simpl.
    rewrite headers_named_update_first_same by (now intros []).
    rewrite E.
    rewrite headers_named_update_first_other;
      [auto | discriminate | now intros []].
Qed.

(** A response to OPTIONS leaves with the allowed methods in its first
    Allow header and the extensions in its first Supported header. *)
Lemma prepareResponse_OPTIONS srv res :
  answers_OPTIONS res = true ->
  asserted_types res = true ->
  exists res',
    prepareResponse srv res = Ok res'
    /\ head (Res.GetHeaders "Allow" res')
       = Some (GenericHeader "Allow" (Join (getAllowedMethods srv) ", "))
    /\ head (Res.GetHeaders "Supported" res')
       = Some (SupportedHeader (extensions srv))
    /\ res_status res' = res_status res
    /\ res_reason res' = res_reason res
    /\ res_body res' = res_body res.
Proof.
  intros Hopt Hty. rewrite prepareResponse_steps, Hopt.
  apply andb_true_iff in Hty as [Ha Hs].
  destruct (allow_step_Ok (Join (getAllowedMethods srv) ", ") res Ha)
    as (res1 & -> & Hallow & Hsup & Hst & Hre & Hbo).
  simpl. rewrite <- Hsup in Hs.
  destruct (supported_step_Ok (extensions srv) res1 Hs)
    as (res2 & -> & Hsup2 & Hallow2 & Hst2 & Hre2 & Hbo2).
  exists res2. rewrite Hallow2. repeat split; congruence.
Qed.

(** On a response to OPTIONS [prepareResponse] returns only when the two
    type assertions hold; otherwise it panics. *)
Lemma prepareResponse_OPTIONS_returns srv res res' :
  answers_OPTIONS res = true ->
  prepareResponse srv res = Ok res' ->
  asserted_types res = true.
Proof.
  intros Hopt. rewrite prepareResponse_steps, Hopt. unfold asserted_types.
  destruct (match Res.GetHeaders "Allow" res with
            | [] | GenericHeader _ _ :: _ => true
            | _ => false
            end) eqn:Ha.
  - destruct (allow_step_Ok (Join (getAllowedMethods srv) ", ") res Ha)
      as (res1 & -> & _ & Hsup & _).
    simpl. unfold supported_step, assign_Options. rewrite Hsup.
    now destruct (Res.GetHeaders "Supported" res) as [|[] ?].
  - unfold allow_step, assign_Contents.
    now destruct (Res.GetHeaders "Allow" res) as [|[] ?].
Qed.

End PrepareResponse.

(** ** The server's send interface and the dispatcher *)

Section ServerClaims.
Import Sip Gosip.
Context {Tx : Type} {L : Transaction.Layer Tx} {B : ResponseBuilder}
        {Handler : Type}.
Implicit Types (srv : Server Tx Handler) (req : Sip.Request).

Lemma shuttingDown_true srv : inShutdown srv <> 0 -> shuttingDown srv = true.
Proof.
  intros H. unfold shuttingDown. apply negb_true_iff. now apply Z.eqb_neq.
Qed.

Lemma Respond_running srv res res' :
  shuttingDown srv = false ->
  prepareResponse srv res = Ok res' ->
  Respond srv res
  = Ok ((Transaction.Respond res' (tx srv)).1,
        set_tx (Transaction.Respond res' (tx srv)).2 srv).
Proof.
  intros Hup Hprep. unfold Respond. rewrite Hup, Hprep. simpl.
  now destruct (Transaction.Respond res' (tx srv)).
Qed.

Lemma handleRequest_unhandled srv req res' :
  requestHandlers srv !! Req.Method req = None ->
  Req.IsAck req = false ->
  shuttingDown srv = false ->
  prepareResponse srv (NewResponseFromRequest req 405 "Method Not Allowed" "")
  = Ok res' ->
  handleRequest srv req
  = Ok ([], set_tx (Transaction.Respond res' (tx srv)).2 srv).
Proof.
  intros Hnone Hack Hup Hprep. unfold handleRequest.
  rewrite Hnone, Hack. now rewrite (Respond_running _ _ res').
Qed.


(** C2: while the in-flight-shutdown counter is not zero, [Request] and
    [Respond] return the error and leave the server, the transaction layer
    included, as it was: the message is not handed on. *)
Theorem send_rejected_while_shutting_down srv req res :
  inShutdown srv <> 0 ->
  Request srv req = (Some stopped, srv)
  /\ Respond srv res = Ok (Some stopped, srv).
Proof.
  intros H. apply shuttingDown_true in H.
  unfold Request, Respond. now rewrite H.
Qed.

End ServerClaims.



Lemma send_rejected_while_shutting_down_witness :
  Gosip.Request (L := Transaction.recording) Sample.stopping Sample.invite
  = (Some Gosip.stopped, Sample.stopping)
  /\ Gosip.Respond (L := Transaction.recording) Sample.stopping
       Sample.options_ok
     = Ok (Some Gosip.stopped, Sample.stopping).
Proof.
  apply (send_rejected_while_shutting_down (L := Transaction.recording)
           Sample.stopping Sample.invite Sample.options_ok).
  discriminate.
Defined.

(** ** Preparing a request *)

Section PrepareRequest.
Import Sip Gosip.
Context {Tx Handler : Type}.
Implicit Types (srv : Server Tx Handler) (req : Sip.Request).

Lemma Req_GetHeaders_append_other name h req :
  Name h <> name ->
  Req.GetHeaders name (Req.AppendHeader h req) = Req.GetHeaders name req.
Proof. intros. unfold Req.GetHeaders. simpl. now apply headers_named_append_other. Qed.

Lemma Req_GetHeaders_append_same name h req :
  Name h = name ->
  Req.GetHeaders name (Req.AppendHeader h req) = Req.GetHeaders name req ++ [h].
Proof. intros. unfold Req.GetHeaders. simpl. now apply headers_named_append_same. Qed.

Lemma lacks_append_other name h req :
  Name h <> name -> lacks name (Req.AppendHeader h req) = lacks name req.
Proof. intros. unfold lacks. now rewrite Req_GetHeaders_append_other. Qed.

Lemma lacks_true name req : lacks name req = true <-> Req.GetHeaders name req = [].
Proof. unfold lacks. destruct (Req.GetHeaders name req); intuition discriminate. Qed.

(** What [prepareRequest] appends, header by header. *)
Lemma prepareRequest_headers srv req :
  req_headers (prepareRequest srv req)
  = req_headers req
    ++ (if auto_appended req && lacks "Allow" req
        then [GenericHeader "Allow" (Join (getAllowedMethods srv) ", ")]
        else [])
    ++ (if auto_appended req && lacks "Supported" req
        then [SupportedHeader (extensions srv)] else [])
    ++ (if lacks "User-Agent" req
        then [GenericHeader "User-Agent" "GoSIP"] else []).
Proof.
  unfold prepareRequest, auto_appended, lacks.
  destruct (autoAppendMethods_request !! Req.Method req); cbv zeta;
    repeat (rewrite ?Req_GetHeaders_append_other by discriminate;
            match goal with
            | |- context [match Req.GetHeaders ?n req with _ => _ end] =>
                destruct (Req.GetHeaders n req) eqn:?
            end);
    simpl; unfold append_header; rewrite <- ?app_assoc; simpl;
    rewrite ?app_nil_r; reflexivity.
Qed.

Lemma prepareRequest_frame srv req :
  req_method (prepareRequest srv req) = req_method req
  /\ req_uri (prepareRequest srv req) = req_uri req
  /\ req_body (prepareRequest srv req) = req_body req.
Proof.
  unfold prepareRequest.
  repeat match goal with
         | |- context [match ?x with _ => _ end] => destruct x
         end; repeat split.
Qed.

Lemma auto_appended_true req :
  auto_appended req = true
  <-> Req.Method req ∈ [INVITE; REGISTER; REFER; NOTIFY].
Proof.
  rewrite <- autoAppendMethods_request_Some. unfold auto_appended.
  destruct (autoAppendMethods_request !! Req.Method req);
    split; intros H; try reflexivity; try discriminate; eauto.
  now destruct H.
Qed.

End PrepareRequest.

Section PrepareRequestClaims.
Import Sip Gosip.
Context {Tx Handler : Type}.
Implicit Types (srv : Server Tx Handler) (req : Sip.Request).

Lemma Request_ext (r1 r2 : Sip.Request) :
  req_method r1 = req_method r2 -> req_uri r1 = req_uri r2 ->
  req_headers r1 = req_headers r2 -> req_body r1 = req_body r2 -> r1 = r2.
Proof. destruct r1, r2; simpl; congruence. Qed.

(** C3: an outbound INVITE, REGISTER, REFER or NOTIFY without a Supported
    header leaves [prepareRequest] with a Supported header appended that
    holds the configured extensions, its only one; an outbound request of
    any method without a User-Agent header leaves with the User-Agent header
    [GoSIP] appended last, its only one. *)
Theorem prepareRequest_adds_Supported_and_User_Agent srv req :
  (Req.Method req ∈ [INVITE; REGISTER; REFER; NOTIFY] ->
   Req.GetHeaders "Supported" req = [] ->
   (exists before after,
      req_headers (prepareRequest srv req)
      = req_headers req ++ before
        ++ [SupportedHeader (extensions srv)] ++ after)
   /\ Req.GetHeaders "Supported" (prepareRequest srv req)
      = [SupportedHeader (extensions srv)])
  /\
  (Req.GetHeaders "User-Agent" req = [] ->
   (exists before,
      req_headers (prepareRequest srv req)
      = req_headers req ++ before ++ [GenericHeader "User-Agent" "GoSIP"])
   /\ Req.GetHeaders "User-Agent" (prepareRequest srv req)
      = [GenericHeader "User-Agent" "GoSIP"]).
Proof.
  split.
  - intros Hm Hs. apply auto_appended_true in Hm.
    pose proof Hs as Hl. apply lacks_true in Hl.
    unfold Req.GetHeaders in *. rewrite prepareRequest_headers, Hm, Hl.
    simpl. split.
    + eauto.
    + rewrite !headers_named_app, Hs.
      destruct (lacks "Allow" req), (lacks "User-Agent" req); reflexivity.
  - intros Hu. pose proof Hu as Hl. apply lacks_true in Hl.
    unfold Req.GetHeaders in *. rewrite prepareRequest_headers, Hl. split.
    + match goal with
      | |- exists _, _ ++ ?a ++ ?s ++ _ = _ => exists (a ++ s)
      end.
      now rewrite <- app_assoc.
    + rewrite !headers_named_app, Hu.
      destruct (auto_appended req && lacks "Allow" req),
        (auto_appended req && lacks "Supported" req); reflexivity.
Qed.

(** C5: an outbound request that already has an Allow, a Supported and a
    User-Agent header leaves [prepareRequest] as it came: nothing is
    appended and nothing else changes. *)
Theorem prepareRequest_complete_unchanged srv req :
  Req.GetHeaders "Allow" req <> [] ->
  Req.GetHeaders "Supported" req <> [] ->
  Req.GetHeaders "User-Agent" req <> [] ->
  prepareRequest srv req = req.
Proof.
  intros Ha Hs Hu.
  assert (forall name, Req.GetHeaders name req <> [] -> lacks name req = false)
    as Hl.
  { intros name H. destruct (lacks name req) eqn:E; [|reflexivity].
    now apply lacks_true in E. }
  destruct (prepareRequest_frame srv req) as (Hm & Hr & Hb).
  apply Request_ext; auto.
  rewrite prepareRequest_headers, !Hl by assumption.
  rewrite !andb_false_r. simpl. apply app_nil_r.
Qed.

End PrepareRequestClaims.

Lemma prepareRequest_adds_Supported_and_User_Agent_witness :
  Sip.Req.GetHeaders "Supported"
    (Gosip.prepareRequest Sample.messaging Sample.invite)
  = [Sip.SupportedHeader ["100rel"]]
  /\ Sip.Req.GetHeaders "User-Agent"
       (Gosip.prepareRequest Sample.messaging Sample.bye)
     = [Sip.GenericHeader "User-Agent" "GoSIP"].
Proof.
  split.
  - apply (prepareRequest_adds_Supported_and_User_Agent
             Sample.messaging Sample.invite); [|reflexivity].
    unfold Sample.invite, Sip.Req.Method. simpl. apply list_elem_of_here.
  - apply (prepareRequest_adds_Supported_and_User_Agent
             Sample.messaging Sample.bye). reflexivity.
Defined.

Lemma prepareRequest_complete_unchanged_witness :
  Gosip.prepareRequest Sample.messaging Sample.invite_complete
  = Sample.invite_complete.
Proof.
  apply (prepareRequest_complete_unchanged
           Sample.messaging Sample.invite_complete); discriminate.
Defined.

Section ListedNames.

Lemma append_cons c (s t : string) : String c s +:+ t = String c (s +:+ t).
Proof. reflexivity. Qed.

Lemma append_empty_r (s : string) : s +:+ "" = s.
Proof.
  induction s as [|c s IH]; [reflexivity|]. now rewrite append_cons, IH.
Qed.

Lemma append_assoc (s t u : string) : (s +:+ t) +:+ u = s +:+ t +:+ u.
Proof.
  induction s as [|c s IH]; [reflexivity|]. now rewrite !append_cons, IH.
Qed.

Lemma fields_from_char field c value :
  Ascii.eqb c "," = false ->
  fields_from field (String c value)
  = fields_from (field +:+ String c "") value.
Proof. intros H. simpl. rewrite H. now destruct value. Qed.

Lemma fields_from_name field name value :
  has_comma name = false ->
  fields_from field (name +:+ value) = fields_from (field +:+ name) value.
Proof.
  revert field. induction name as [|c name IH]; intros field H.
  - rewrite append_empty_r. reflexivity.
  - simpl in H. apply orb_false_iff in H as [Hc Hname].
    rewrite append_cons, fields_from_char, IH by assumption.
    now rewrite append_assoc.
Qed.

(** The names read off a value that [strings.Join] made with ", " are the
    names joined, when none of them has a comma. *)
Lemma fields_from_Join field name names :
  Forall (fun n => has_comma n = false) (name :: names) ->
  fields_from field (Join (name :: names) ", ")
  = (field +:+ name) :: names.
Proof.
  revert field name.
  induction names as [|name' names IH]; intros field name H.
  - apply Forall_cons in H as [H _]. simpl.
    rewrite <- (append_empty_r name) at 1.
    now rewrite fields_from_name.
  - apply Forall_cons in H as [H Hrest].
    change (Join (name :: name' :: names) ", ")
      with (name +:+ String "," (String " " (Join (name' :: names) ", "))).
    rewrite fields_from_name by assumption.
    cbn [fields_from Ascii.eqb Bool.eqb andb].
    now rewrite IH.
Qed.

Lemma listed_Join names :
  names <> [] ->
  Forall (fun n => has_comma n = false) names ->
  listed (Join names ", ") = names.
Proof.
  destruct names as [|name names]; [congruence|]. intros _ H.
  unfold listed. now rewrite fields_from_Join.
Qed.

End ListedNames.

Section HandlerTableClaims.
Import Sip Gosip.
Context {Tx : Type} {L : Transaction.Layer Tx} {B : ResponseBuilder}
        {Handler : Type}.
Implicit Types (srv : Server Tx Handler) (res : Response).

(** C4 (as amended): the allowed methods are the registered methods
    together with INVITE, ACK and CANCEL, each listed once, those three
    included whatever is registered.  A response whose CSeq names OPTIONS (a
    200 OK to an OPTIONS request is one) and whose Allow and Supported
    headers, if it has any, are of the types [prepareResponse] asserts,
    leaves [prepareResponse] with its status and reason and with an Allow
    header whose value is the allowed methods joined by ", "; no method name
    holding a comma, the names that value lists are exactly the allowed
    methods.  On a response whose first Allow or Supported header is of
    another type [prepareResponse] panics: no response is returned. *)
Theorem allowed_methods_in_OPTIONS_response srv :
  (forall m, m ∈ getAllowedMethods srv
             <-> is_Some (requestHandlers srv !! m)
                 \/ m ∈ [INVITE; ACK; CANCEL])
  /\ NoDup (getAllowedMethods srv)
  /\ (forall m, m ∈ [INVITE; ACK; CANCEL] -> m ∈ getAllowedMethods srv)
  /\ (forall res,
        answers_OPTIONS res = true ->
        asserted_types res = true ->
        exists res' value,
          prepareResponse srv res = Ok res'
          /\ res_status res' = res_status res
          /\ res_reason res' = res_reason res
          /\ head (Res.GetHeaders "Allow" res')
             = Some (GenericHeader "Allow" value)
          /\ value = Join (getAllowedMethods srv) ", "
          /\ ((forall m, m ∈ getAllowedMethods srv -> has_comma m = false) ->
              listed value = getAllowedMethods srv
              /\ forall m, m ∈ listed value
                           <-> is_Some (requestHandlers srv !! m)
                               \/ m ∈ [INVITE; ACK; CANCEL]))
  /\ (forall res,
        answers_OPTIONS res = true ->
        asserted_types res = false ->
        exists msg, prepareResponse srv res = Panic msg).
Proof.
  split; [|split; [|split; [|split]]].
  - apply getAllowedMethods_elem.
  - apply getAllowedMethods_NoDup.
  - intros m Hm. apply getAllowedMethods_elem. now right.
  - intros res Hopt Hty.
    destruct (prepareResponse_OPTIONS srv res Hopt Hty)
      as (res' & Hprep & Hallow & _ & Hst & Hre & _).
    exists res', (Join (getAllowedMethods srv) ", ").
    repeat split; auto.
    + apply listed_Join.
      * rewrite getAllowedMethods_unfold. discriminate.
      * now apply Forall_forall.
    + rewrite listed_Join.
      * apply getAllowedMethods_elem.
      * rewrite getAllowedMethods_unfold. discriminate.
      * now apply Forall_forall.
    + rewrite listed_Join.
      * apply getAllowedMethods_elem.
      * rewrite getAllowedMethods_unfold. discriminate.
      * now apply Forall_forall.
  - intros res Hopt Hty.
    destruct (prepareResponse srv res) as [res'|msg] eqn:E; [|eauto].
    rewrite (prepareResponse_OPTIONS_returns srv res res' Hopt E) in Hty.
    discriminate.
Qed.

Lemma already_binded_false (handlers : list Handler) :
  already_binded handlers = false.
Proof. induction handlers as [|h rest IH]; simpl; auto. Qed.

Lemma OnRequest_unfold srv method (handler : Handler) :
  OnRequest srv method handler
  = (None,
     set_requestHandlers
       (<[method := default [] (requestHandlers srv !! method) ++ [handler]]>
          (requestHandlers srv))
       srv).
Proof. unfold OnRequest. now rewrite already_binded_false. Qed.

(** C9: [OnRequest] returns nil and appends the handler to the list of its
    method, whatever that list holds: the loop that looks for the handler
    never finds it, so the error is never returned; after registering one
    handler twice, a request of that method makes the dispatcher call it
    twice (after the handlers registered before). *)
Theorem OnRequest_always_appends srv method (handler : Handler)
    (uri body : string) (headers : list Header) :
  let registered := default [] (requestHandlers srv !! method) in
  let srv1 := (OnRequest srv method handler).2 in
  let srv2 := (OnRequest srv1 method handler).2 in
  let req := mkRequest method uri headers body in
  OnRequest srv method handler
  = (None,
     set_requestHandlers
       (<[method := registered ++ [handler]]> (requestHandlers srv)) srv)
  /\ (OnRequest srv1 method handler).1 = None
  /\ requestHandlers srv2 !! method = Some (registered ++ [handler; handler])
  /\ (forall handlers : list Handler, already_binded handlers = false)
  /\ handleRequest srv2 req
     = Ok (List.map (fun h => (h, req)) (registered ++ [handler; handler]),
           srv2).
Proof.
  intros registered srv1 srv2 req. subst srv2 srv1.
  rewrite !OnRequest_unfold. simpl.
  rewrite lookup_insert_eq. simpl. rewrite lookup_insert_eq.
  assert (default [] (Some (registered ++ [handler])) ++ [handler]
          = registered ++ [handler; handler]) as E
    by (simpl; now rewrite <- app_assoc).
  fold registered. rewrite E. repeat split.
  - apply already_binded_false.
  - unfold handleRequest. simpl. now rewrite lookup_insert_eq.
Qed.

End HandlerTableClaims.

Lemma allowed_methods_in_OPTIONS_response_witness :
  exists res' value,
    Gosip.prepareResponse Sample.messaging Sample.options_ok = Ok res'
    /\ Sip.res_status res' = 200
    /\ Sip.res_reason res' = "OK"
    /\ head (Sip.Res.GetHeaders "Allow" res')
       = Some (Sip.GenericHeader "Allow" value)
    /\ value = "INVITE, ACK, CANCEL, MESSAGE"
    /\ listed value = ["INVITE"; "ACK"; "CANCEL"; "MESSAGE"].
Proof.
  pose proof (allowed_methods_in_OPTIONS_response Sample.messaging)
    as (_ & _ & _ & Hright & _).
  destruct (Hright Sample.options_ok eq_refl eq_refl)
    as (res' & value & Hprep & Hst & Hre & Hallow & Hval & Hlisted).
  assert (Gosip.getAllowedMethods Sample.messaging
          = ["INVITE"; "ACK"; "CANCEL"; "MESSAGE"]) as Hm
    by (vm_compute; reflexivity).
  exists res', value.
  split; [exact Hprep|]. split; [exact Hst|]. split; [exact Hre|].
  split; [exact Hallow|]. split; [now rewrite Hval, Hm|].
  rewrite Hm in Hlisted. apply Hlisted. intros m Hin.
  repeat (apply elem_of_cons in Hin as [->|Hin]; [reflexivity|]).
  now apply elem_of_nil in Hin.
Defined.

(** C4 fails on the code as first stated: a 200 OK to OPTIONS that carries
    its Supported header as a generic header makes [prepareResponse] panic
    in the type assertion, so no response, and no Allow header, comes
    out. *)
Lemma OPTIONS_ok_with_generic_Supported_panics :
  Sip.res_status Sample.options_ok_generic_Supported = 200
  /\ Gosip.answers_OPTIONS Sample.options_ok_generic_Supported = true
  /\ Gosip.prepareResponse Sample.messaging
       Sample.options_ok_generic_Supported
     = Panic "interface conversion: sip.Header is not *sip.SupportedHeader".
Proof. repeat split; reflexivity. Qed.

(** ** The connection *)

Section ConnectionClaims.
Import Transport.
Context {C : Type} {N : Conn C}.
Implicit Types (conn : connection C).

Ltac outcome_cases H :=
  repeat match type of H with
         | context [obind ?o _] =>
             let E := fresh "E" in
             destruct o eqn:E; simpl in H; [|discriminate H]
         end.

Lemma Close_unfold conn :
  Close conn
  = let b := (base_Close (baseConn conn)).2 in
    let conn' := set_baseConn b conn in
    match (base_Close (baseConn conn)).1 with
    | Some cause =>
        net <-! Network conn'; s <-! String conn';
        Ok (Some (ConnectionError cause "close" net "" "" s), conn')
    | None => _ <-! Log conn'; Ok (None, conn')
    end.
Proof. unfold Close. now destruct (base_Close (baseConn conn)). Qed.

Lemma Network_total conn :
  base_LocalAddr (baseConn conn) <> None ->
  exists net, Network conn = Ok net.
Proof.
  intros H. unfold Network.
  destruct (base_LocalAddr (baseConn conn)); [eauto | congruence].
Qed.

Lemma Network_nil conn :
  base_LocalAddr (baseConn conn) = None ->
  Network conn = Panic nil_dereference.
Proof. intros H. unfold Network. now rewrite H. Qed.

Lemma String_nil conn :
  base_LocalAddr (baseConn conn) = None ->
  String conn = Panic nil_dereference.
Proof. intros H. unfold String. now rewrite Network_nil. Qed.

(** C6 (as amended): [Close] hands the call to the wrapped socket and keeps
    no record of having been closed.  After a [Close] that returned nil, and
    provided the socket still reports a local address after its second
    [Close], a second [Close] returns nil exactly when the socket's own
    second [Close] does; when that reports an error, [Close] returns it
    wrapped in a [ConnectionError]; either way the connection then holds the
    socket as that call left it.  On a socket that reports no local address
    after its second [Close] the second [Close] of the connection panics,
    whatever the socket's returned: [Close] reads the network name from that
    address. *)
Theorem second_Close_follows_the_socket conn c1 :
  Close conn = Ok (None, c1) ->
  (base_Close (baseConn conn)).1 = None
  /\ c1 = set_baseConn (base_Close (baseConn conn)).2 conn
  /\ (base_LocalAddr (base_Close (baseConn c1)).2 <> None ->
      exists err,
        Close c1 = Ok (err, set_baseConn (base_Close (baseConn c1)).2 c1)
        /\ (err = None <-> (base_Close (baseConn c1)).1 = None)
        /\ (forall cause,
              (base_Close (baseConn c1)).1 = Some cause ->
              exists net s,
                err = Some (ConnectionError cause "close" net "" "" s)))
  /\ (base_LocalAddr (base_Close (baseConn c1)).2 = None ->
      Close c1 = Panic nil_dereference).
Proof.
  intros H1. rewrite Close_unfold in H1. simpl in H1.
  destruct (base_Close (baseConn conn)).1 as [cause|] eqn:E1.
  { outcome_cases H1. discriminate H1. }
  outcome_cases H1. injection H1 as <-.
  split; [reflexivity|]. split; [reflexivity|].
  set (c1 := set_baseConn (base_Close (baseConn conn)).2 conn) in *.
  rewrite (Close_unfold c1). cbv zeta.
  set (c2 := set_baseConn (base_Close (baseConn c1)).2 c1).
  split.
  - intros Hl.
    destruct (Network_total c2 Hl) as [net Hnet].
    unfold Log, String. rewrite Hnet. cbn [obind].
    destruct (base_Close (baseConn c1)).1 as [cause|].
    + eexists. split; [reflexivity|]. split.
      * split; discriminate.
      * intros ? [= <-]. eauto.
    + exists None. split; [reflexivity|]. split; [tauto|]. discriminate.
  - intros Hnil. unfold Log.
    rewrite (String_nil c2 Hnil), (Network_nil c2 Hnil).
    now destruct (base_Close (baseConn c1)).1.
Qed.

(** C7 (as amended): an error returned by [Read], [ReadFrom], [Write] or
    [WriteTo] is a [ConnectionError] that holds the error of the socket
    call, the operation ("read" or "write"), the network, the remote address
    (the connection's, or the datagram's for [ReadFrom] and [WriteTo]), the
    local address and the connection's rendering; one returned by [Close]
    holds the cause, "close", the network and the rendering, with both
    address fields empty. *)
Theorem io_errors_are_ConnectionErrors conn :
  (forall now n num e c',
     Read conn now n = Ok (num, Some e, c') ->
     exists cause net s,
       e = ConnectionError cause "read" net (fmt_v (RemoteAddr conn))
             (fmt_v (LocalAddr conn)) s
       /\ Network c' = Ok net /\ String c' = Ok s
       /\ (base_Read n
             (base_SetReadDeadline (now + readTimeout) (baseConn conn)).2).1.2
          = Some cause)
  /\
  (forall now n num raddr e c',
     ReadFrom conn now n = Ok (num, raddr, Some e, c') ->
     exists cause net s,
       e = ConnectionError cause "read" net (fmt_v raddr)
             (fmt_v (LocalAddr conn)) s
       /\ Network c' = Ok net /\ String c' = Ok s
       /\ (base_ReadFrom n
             (base_SetReadDeadline (now + readTimeout) (baseConn conn)).2).1.2
          = Some cause)
  /\
  (forall now buf num e c',
     Write conn now buf = Ok (num, Some e, c') ->
     exists cause net s,
       e = ConnectionError cause "write" net (fmt_v (RemoteAddr conn))
             (fmt_v (LocalAddr conn)) s
       /\ Network c' = Ok net /\ String c' = Ok s
       /\ (base_Write buf
             (base_SetWriteDeadline (now + writeTimeout)
                (baseConn conn)).2).1.2
          = Some cause)
  /\
  (forall now buf raddr num e c',
     WriteTo conn now buf raddr = Ok (num, Some e, c') ->
     exists cause net s,
       e = ConnectionError cause "write" net (fmt_v raddr)
             (fmt_v (LocalAddr conn)) s
       /\ Network c' = Ok net /\ String c' = Ok s
       /\ (base_WriteTo buf raddr
             (base_SetWriteDeadline (now + writeTimeout)
                (baseConn conn)).2).1.2
          = Some cause)
  /\
  (forall e c',
     Close conn = Ok (Some e, c') ->
     exists cause net s,
       e = ConnectionError cause "close" net "" "" s
       /\ Network c' = Ok net /\ String c' = Ok s
       /\ (base_Close (baseConn conn)).1 = Some cause).
Proof.
  repeat split.
  - intros now n num e c' H. unfold Read in H.
    destruct (base_SetReadDeadline _ _) as [derr b]. simpl in *.
    outcome_cases H.
    destruct (base_Read n b) as [[data [cause|]] b2]; simpl in *;
      outcome_cases H; [|discriminate H].
    injection H as <- <- <-. eauto 10.
  - intros now n num raddr e c' H. unfold ReadFrom in H.
    destruct (base_SetReadDeadline _ _) as [derr b]. simpl in *.
    outcome_cases H.
    destruct (is_PacketConn b); [|discriminate H].
    destruct (base_ReadFrom n b) as [[[data ra] [cause|]] b2]; simpl in *;
      outcome_cases H; [|discriminate H].
    injection H as <- <- <- <-. eauto 10.
  - intros now buf num e c' H. unfold Write in H.
    destruct (base_SetWriteDeadline _ _) as [derr b]. simpl in *.
    outcome_cases H.
    destruct (base_Write buf b) as [[k [cause|]] b2]; simpl in *;
      outcome_cases H; [|discriminate H].
    injection H as <- <- <-. eauto 10.
  - intros now buf raddr num e c' H. unfold WriteTo in H.
    destruct (base_SetWriteDeadline _ _) as [derr b]. simpl in *.
    outcome_cases H.
    destruct (is_PacketConn b); [|discriminate H].
    destruct (base_WriteTo buf raddr b) as [[k [cause|]] b2]; simpl in *;
      outcome_cases H; [|discriminate H].
    injection H as <- <- <-. eauto 10.
  - intros e c' H. rewrite Close_unfold in H. simpl in H.
    destruct (base_Close (baseConn conn)).1 as [cause|];
      outcome_cases H; [|discriminate H].
    injection H as <- <-. eauto 10.
Qed.

End ConnectionClaims.

(** On a TCP socket the first [Close] returns nil and the second one the
    closed-connection error, wrapped. *)
Lemma second_Close_on_a_socket_fails :
  Transport.Close Sample.tcp_conn = Ok (None, Sample.tcp_conn_closed)
  /\ Transport.Close Sample.tcp_conn_closed
     = Ok (Some (Transport.ConnectionError Transport.ErrNetClosing "close"
                   "TCP" "" "" Sample.tcp_conn_String),
           Sample.tcp_conn_closed).
Proof. split; reflexivity. Qed.

(** On a pipe both calls return nil. *)
Lemma second_Close_on_a_pipe_succeeds :
  Transport.Close Sample.pipe_conn = Ok (None, Sample.pipe_conn_closed)
  /\ Transport.Close Sample.pipe_conn_closed
     = Ok (None, Sample.pipe_conn_closed).
Proof. split; reflexivity. Qed.

Lemma second_Close_follows_the_socket_witness :
  (Transport.base_Close (Transport.baseConn Sample.tcp_conn)).1 = None
  /\ Sample.tcp_conn_closed
     = Transport.set_baseConn
         (Transport.base_Close (Transport.baseConn Sample.tcp_conn)).2
         Sample.tcp_conn
  /\ exists err,
       Transport.Close Sample.tcp_conn_closed
       = Ok (err,
             Transport.set_baseConn
               (Transport.base_Close
                  (Transport.baseConn Sample.tcp_conn_closed)).2
               Sample.tcp_conn_closed)
       /\ (err = None
           <-> (Transport.base_Close
                  (Transport.baseConn Sample.tcp_conn_closed)).1 = None)
       /\ (forall cause,
             (Transport.base_Close
                (Transport.baseConn Sample.tcp_conn_closed)).1 = Some cause ->
             exists net s,
               err = Some (Transport.ConnectionError cause "close" net "" "" s)).
Proof.
  assert (Transport.Close Sample.tcp_conn
          = Ok (None, Sample.tcp_conn_closed)) as Hclose by reflexivity.
  destruct (second_Close_follows_the_socket
              Sample.tcp_conn Sample.tcp_conn_closed Hclose)
    as (Hfirst & Hc1 & Hsecond & _).
  split; [exact Hfirst|]. split; [exact Hc1|].
  apply Hsecond. discriminate.
Defined.

(** The error of a failed [Close] names neither address of the
    connection. *)
Lemma Close_error_has_no_addresses :
  exists cause op net source dest s,
    Transport.Close Sample.tcp_conn_closed
    = Ok (Some (Transport.ConnectionError cause op net source dest s),
          Sample.tcp_conn_closed)
    /\ Transport.fmt_v (Transport.RemoteAddr Sample.tcp_conn_closed)
       = "127.0.0.1:9001"
    /\ Transport.fmt_v (Transport.LocalAddr Sample.tcp_conn_closed)
       = "127.0.0.1:5060"
    /\ source = "" /\ dest = ""
    /\ source <> Transport.fmt_v (Transport.RemoteAddr Sample.tcp_conn_closed)
    /\ dest <> Transport.fmt_v (Transport.LocalAddr Sample.tcp_conn_closed).
Proof.
  do 6 eexists. split; [reflexivity|].
  repeat split; discriminate.
Qed.

Lemma io_errors_are_ConnectionErrors_witness :
  exists cause net s,
    Transport.ConnectionError Transport.ErrTimeout "read" "TCP"
      "127.0.0.1:9001" "127.0.0.1:5060" Sample.tcp_conn_String
    = Transport.ConnectionError cause "read" net
        (Transport.fmt_v (Transport.RemoteAddr Sample.tcp_conn))
        (Transport.fmt_v (Transport.LocalAddr Sample.tcp_conn)) s
    /\ Transport.Network Sample.tcp_conn = Ok net
    /\ Transport.String Sample.tcp_conn = Ok s
    /\ (Transport.base_Read 1500
          (Transport.base_SetReadDeadline (0 + Transport.readTimeout)
             (Transport.baseConn Sample.tcp_conn)).2).1.2
       = Some cause.
Proof.
  apply (io_errors_are_ConnectionErrors Sample.tcp_conn) with (num := 0).
  reflexivity.
Defined.

(** ** The parser buffer *)

Section ParserBuffer.
Import Parser.
Local Open Scope nat_scope.
Implicit Types (pb : parserBuffer) (d data : list byte).

Lemma pipe_Read_ok room pb d pb' :
  pipe_Read room pb = ReadOk d pb' ->
  buffered pb' = buffered pb
  /\ done pb = None /\ done pb' = None
  /\ length d <= room
  /\ List.concat (pending pb) = d ++ List.concat (pending pb')
  /\ length (pending pb') <= length (pending pb)
  /\ (0 < room -> d = [] -> length (pending pb') < length (pending pb)).
Proof.
  unfold pipe_Read.
  destruct (done pb); [discriminate|].
  destruct (pending pb) as [|w rest]; [discriminate|].
  intros [= <- <-]. simpl.
  repeat split.
  - rewrite length_take. lia.
  - transitivity ((take room w ++ drop room w) ++ List.concat rest);
      [now rewrite take_drop|].
    rewrite <- app_assoc. now destruct (drop room w).
  - destruct (drop room w); simpl; lia.
  - intros Hroom Hd.
    assert (w = []) as ->.
    { destruct w; [reflexivity|]. destruct room; [lia|discriminate]. }
    rewrite drop_nil. simpl. lia.
Qed.

(** What a successful read takes is the front of the stream; it never adds
    a pending write, and a read that gets no byte has used one up. *)
Lemma reader_Read_ok len_p pb d pb' :
  reader_Read len_p pb = ReadOk d pb' ->
  stream pb = d ++ stream pb'
  /\ length d <= len_p
  /\ length (pending pb') <= length (pending pb)
  /\ (0 < len_p -> d = [] -> length (pending pb') < length (pending pb)).
Proof.
  unfold reader_Read, stream.
  destruct len_p as [|k]; [intros [= <- <-]; simpl; repeat split; lia|].
  destruct (buffered pb) as [|b0 bs] eqn:Eb.
  - destruct (defaultBufSize <=? S k).
    + intros H. apply pipe_Read_ok in H
        as (Hb & Hd & Hd' & Hlen & Hcat & Hp & Hp').
      rewrite Hb, Eb, Hd, Hd'. simpl. auto.
    + destruct (pipe_Read defaultBufSize pb) as [data pb1| |] eqn:Ep;
        [|discriminate|discriminate].
      apply pipe_Read_ok in Ep as (Hb & Hd & Hd' & Hlen & Hcat & Hp & Hp').
      destruct data as [|x xs].
      * intros [= <- <-]. rewrite Hb, Eb, Hd, Hd'. simpl.
        repeat split; auto; try lia.
        intros _ _. apply Hp'; [unfold defaultBufSize; lia | reflexivity].
      * intros [= <- <-]. simpl. rewrite Hd, Hd', Hcat.
        repeat split; try lia.
        -- simpl. f_equal. rewrite app_assoc. now rewrite take_drop.
        -- rewrite length_take. lia.
        -- discriminate.
  - intros [= <- <-]. simpl. repeat split; try lia.
    + f_equal. rewrite app_assoc. now rewrite take_drop.
    + rewrite length_take. lia.
    + discriminate.
Qed.

(** With a byte left in the stream, a read into a slice with room
    succeeds. *)
Lemma reader_Read_available len_p pb :
  0 < len_p -> stream pb <> [] ->
  exists d pb', reader_Read len_p pb = ReadOk d pb'.
Proof.
  intros Hlen Hs. unfold reader_Read, stream in *.
  destruct len_p as [|k]; [lia|].
  destruct (buffered pb) as [|b0 bs]; [|eauto].
  simpl in Hs. unfold pipe_Read.
  destruct (done pb); [congruence|].
  destruct (pending pb) as [|w rest]; [now simpl in Hs|].
  destruct (defaultBufSize <=? S k); [eauto|].
  destruct (take defaultBufSize w); eauto.
Qed.

End ParserBuffer.

Section NextChunkClaims.
Import Parser.
Local Open Scope nat_scope.
Implicit Types (pb : parserBuffer) (d data : list byte).

Lemma length_store data total d :
  total + length d <= length data ->
  length (store data total d) = length data.
Proof.
  intros H. unfold store.
  rewrite !length_app, length_take, length_drop. lia.
Qed.

Lemma take_store data total d :
  total <= length data ->
  take (total + length d) (store data total d) = take total data ++ d.
Proof.
  intros H. unfold store. rewrite app_assoc.
  apply take_app_length'. rewrite length_app, length_take. lia.
Qed.

(** With enough bytes in the stream the loop runs to its end, whatever the
    writes were cut into: it returns what it had stored followed by the next
    bytes of the stream, and the stream afterwards starts right behind
    them. *)
Lemma NextChunk_loop_reads fuel : forall n data total pb,
  length data = n ->
  total <= n ->
  n - total <= length (stream pb) ->
  (n - total) + length (pending pb) <= fuel ->
  exists pb',
    NextChunk_loop fuel n data total pb
    = Some (Returned (take total data ++ take (n - total) (stream pb))
                     None pb')
    /\ stream pb' = drop (n - total) (stream pb).
Proof.
  induction fuel as [|fuel IH]; intros n data total pb Hdata Htot Hav Hfuel.
  - assert (total = n) as -> by lia. simpl.
    rewrite Nat.leb_refl. exists pb.
    rewrite Nat.sub_diag, take_0, app_nil_r, drop_0.
    rewrite take_ge by lia. auto.
  - simpl. destruct (n <=? total) eqn:Ele.
    + apply Nat.leb_le in Ele. assert (total = n) as -> by lia.
      exists pb. rewrite Nat.sub_diag, take_0, app_nil_r, drop_0.
      rewrite take_ge by lia. auto.
    + apply Nat.leb_gt in Ele.
      assert (length (drop total data) = n - total) as Hroom
        by (rewrite length_drop; lia).
      rewrite Hroom.
      destruct (reader_Read_available (n - total) pb) as (d & pb1 & Hread);
        [lia | intros E; rewrite E in Hav; simpl in Hav; lia |].
      rewrite Hread.
      apply reader_Read_ok in Hread as (Hs & Hlen & Hp & Hp').
      assert (length (stream pb) = length d + length (stream pb1)) as Hl
        by (rewrite Hs; apply length_app).
      destruct (IH n (store data total d) (total + length d) pb1)
        as (pb' & Hloop & Hstream).
      * rewrite length_store; lia.
      * lia.
      * lia.
      * destruct d as [|x xs]; simpl in *; [|lia].
        specialize (Hp' ltac:(lia) eq_refl). lia.
      * exists pb'. rewrite Hloop, Hstream, Hs.
        rewrite take_store by lia.
        rewrite take_app, drop_app.
        rewrite (take_ge d), (drop_ge d) by lia.
        replace (n - (total + length d)) with (n - total - length d) by lia.
        rewrite <- app_assoc. auto.
Qed.

(** Every iteration stores a byte or uses up a pending write, so the loop
    never needs more than [iterations] of them. *)
Lemma NextChunk_loop_total fuel : forall n data total pb,
  length data = n ->
  total <= n ->
  (n - total) + length (pending pb) <= fuel ->
  NextChunk_loop fuel n data total pb <> None.
Proof.
  induction fuel as [|fuel IH]; intros n data total pb Hdata Htot Hfuel.
  - assert (total = n) as -> by lia. simpl. now rewrite Nat.leb_refl.
  - simpl. destruct (n <=? total) eqn:Ele; [discriminate|].
    apply Nat.leb_gt in Ele.
    assert (length (drop total data) = n - total) as Hroom
      by (rewrite length_drop; lia).
    rewrite Hroom.
    destruct (reader_Read (n - total) pb) as [d pb1| |] eqn:Hread;
      [|discriminate|discriminate].
    apply reader_Read_ok in Hread as (Hs & Hlen & Hp & Hp').
    apply IH.
    + rewrite length_store; lia.
    + lia.
    + destruct d as [|x xs]; simpl in *; [|lia].
      specialize (Hp' ltac:(lia) eq_refl). lia.
Qed.

End NextChunkClaims.

(** [NextChunk] always comes to an end: it returns, blocks for a writer or
    panics (on a negative length). *)
Lemma NextChunk_total (pb : Parser.parserBuffer) (n : Z) :
  Parser.NextChunk pb n <> None.
Proof.
  unfold Parser.NextChunk. destruct (n <? 0); [discriminate|].
  apply NextChunk_loop_total.
  - apply length_replicate.
  - lia.
  - unfold Parser.iterations. lia.
Qed.

(** C8: for n >= 0 and a stream that holds at least n bytes, [NextChunk(n)]
    returns exactly the first n bytes of the stream with a nil error, and
    what is left to read afterwards is the stream without those n bytes. *)
Theorem NextChunk_takes_exactly_n (pb : Parser.parserBuffer) (n : Z) :
  0 <= n ->
  n <= Z.of_nat (length (Parser.stream pb)) ->
  exists pb',
    Parser.NextChunk pb n
    = Some (Parser.Returned (take (Z.to_nat n) (Parser.stream pb)) None pb')
    /\ Parser.stream pb' = drop (Z.to_nat n) (Parser.stream pb)
    /\ length (take (Z.to_nat n) (Parser.stream pb)) = Z.to_nat n.
Proof.
  intros Hn Hav. unfold Parser.NextChunk.
  destruct (n <? 0) eqn:E; [apply Z.ltb_lt in E; lia|].
  destruct (NextChunk_loop_reads
              (Parser.iterations (Z.to_nat n) pb) (Z.to_nat n)
              (replicate (Z.to_nat n) x00) 0%nat pb)
    as (pb' & Hloop & Hstream).
  - apply length_replicate.
  - lia.
  - lia.
  - unfold Parser.iterations. lia.
  - exists pb'. rewrite Hloop, Hstream. rewrite Nat.sub_0_r, take_0. simpl.
    repeat split. rewrite length_take. lia.
Qed.

Lemma NextChunk_takes_exactly_n_witness :
  exists pb',
    Parser.NextChunk Sample.fed 4
    = Some (Parser.Returned
              (take (Z.to_nat 4) (Parser.stream Sample.fed)) None pb')
    /\ Parser.stream pb' = drop (Z.to_nat 4) (Parser.stream Sample.fed)
    /\ length (take (Z.to_nat 4) (Parser.stream Sample.fed)) = Z.to_nat 4.
Proof.
  apply (NextChunk_takes_exactly_n Sample.fed 4).
  - lia.
  - vm_compute. discriminate.
Defined.

(** The same call, evaluated. *)
Example NextChunk_fed_4 :
  Parser.NextChunk Sample.fed 4
  = Some (Parser.Returned ["v"; "="; "0"; "013"]%byte None
            (Parser.mkParserBuffer ["010"%byte] [] None)).
Proof. reflexivity. Qed.

(** ** The mock connection *)

(** [LocalAddr] asks the embedded connection when [LAddr] is nil. *)
Lemma MockConn_LocalAddr_nil (laddr raddr : option Transport.Addr) :
  Testutils.LocalAddr (Testutils.mkMockConn Sample.tcp_socket None raddr)
  = Some Sample.server_addr.
Proof. reflexivity. Qed.

(** With an address in [RAddr] the call returns it at once. *)
Lemma MockConn_RemoteAddr_set {C} (conn : C)
    (laddr : option Transport.Addr) (a : Transport.Addr) (depth : nat) :
  Testutils.RemoteAddr (S depth) (Testutils.mkMockConn conn laddr (Some a))
  = Some (Some a).
Proof. reflexivity. Qed.

(** C10 fails on the code: with [RAddr] nil the method calls itself on the
    same receiver, so no bound on the nesting lets the call return. *)
Theorem MockConn_RemoteAddr_nil_never_returns {C} (conn : C)
    (laddr : option Transport.Addr) (depth : nat) :
  Testutils.RemoteAddr depth (Testutils.mkMockConn conn laddr None) = None.
Proof. induction depth as [|depth IH]; simpl; auto. Qed.

(** * Further properties *)

(** ** The handler table *)

Section HandlerTable.
Import Sip Gosip.
Context {Tx : Type} {L : Transaction.Layer Tx} {B : ResponseBuilder}
        {Handler : Type}.
Implicit Types (srv : Server Tx Handler) (m method : RequestMethod)
               (calls : list (RequestMethod * Handler)).

Lemma register_frame srv calls :
  tx (register srv calls) = tx srv
  /\ inShutdown (register srv calls) = inShutdown srv
  /\ extensions (register srv calls) = extensions srv.
Proof.
  revert srv. induction calls as [|[m h] calls IH]; intros srv; simpl; auto.
  rewrite OnRequest_unfold. simpl.
  destruct (IH (set_requestHandlers
                  (<[m := default [] (requestHandlers srv !! m) ++ [h]]>
                     (requestHandlers srv)) srv)) as (H1 & H2 & H3).
  auto.
Qed.

Lemma register_lookup srv calls m :
  requestHandlers (register srv calls) !! m
  = match registered_for m calls with
    | [] => requestHandlers srv !! m
    | hs => Some (default [] (requestHandlers srv !! m) ++ hs)
    end.
Proof.
  revert srv. induction calls as [|[m0 h0] calls IH]; intros srv; simpl.
  - reflexivity.
  - rewrite OnRequest_unfold. simpl. rewrite IH. simpl.
    unfold registered_for. simpl.
    destruct (decide (m0 = m)) as [->|Hne].
    + rewrite bool_decide_eq_true_2 by reflexivity. simpl.
      rewrite lookup_insert_eq. simpl.
      fold (registered_for m calls).
      destruct (registered_for m calls); [reflexivity|].
      now rewrite <- app_assoc.
    + rewrite bool_decide_eq_false_2 by assumption.
      now rewrite lookup_insert_ne by assumption.
Qed.


(** X2: registering a handler makes its method an allowed one and changes
    the standing of no other method; the transaction layer, the shutdown
    counter, the extensions and the handlers of the other methods stay as
    they were. *)
Theorem OnRequest_allows_its_method srv method (handler : Handler) :
  let srv' := (OnRequest srv method handler).2 in
  (forall m, m ∈ getAllowedMethods srv'
             <-> m = method \/ m ∈ getAllowedMethods srv)
  /\ (forall m, m <> method ->
                requestHandlers srv' !! m = requestHandlers srv !! m)
  /\ tx srv' = tx srv
  /\ inShutdown srv' = inShutdown srv
  /\ extensions srv' = extensions srv.
Proof.
  intros srv'. subst srv'. rewrite OnRequest_unfold. simpl.
  split; [|split; [|auto]].
  - intros m. rewrite !getAllowedMethods_elem. simpl.
    rewrite lookup_insert_is_Some.
    destruct (decide (method = m)) as [->|Hne]; intuition.
  - intros m Hne. now rewrite lookup_insert_ne by congruence.
Qed.

End HandlerTable.


(** ** More on preparing a request *)

Section PrepareRequestMore.
Import Sip Gosip.
Context {Tx Handler : Type}.
Implicit Types (srv : Server Tx Handler) (req : Sip.Request).

Lemma lacks_false name req :
  lacks name req = false <-> Req.GetHeaders name req <> [].
Proof. unfold lacks. destruct (Req.GetHeaders name req); intuition congruence. Qed.

Lemma Req_GetHeaders_prepared srv req name :
  Req.GetHeaders name (prepareRequest srv req)
  = Req.GetHeaders name req
    ++ headers_named name
         (if auto_appended req && lacks "Allow" req
          then [GenericHeader "Allow" (Join (getAllowedMethods srv) ", ")]
          else [])
    ++ headers_named name
         (if auto_appended req && lacks "Supported" req
          then [SupportedHeader (extensions srv)] else [])
    ++ headers_named name
         (if lacks "User-Agent" req
          then [GenericHeader "User-Agent" "GoSIP"] else []).
Proof.
  unfold Req.GetHeaders. rewrite prepareRequest_headers.
  now rewrite !headers_named_app.
Qed.

Lemma auto_appended_prepared srv req :
  auto_appended (prepareRequest srv req) = auto_appended req.
Proof.
  unfold auto_appended, Req.Method.
  now destruct (prepareRequest_frame srv req) as (-> & _).
Qed.

Lemma headers_named_single name h :
  Name h = name -> headers_named name [h] = [h].
Proof.
  intros E. unfold headers_named. simpl.
  apply named_true in E. now rewrite E.
Qed.

Lemma app_single_not_nil {A} (l1 l2 l3 : list A) (x : A) :
  l1 ++ l2 ++ l3 ++ [x] <> [].
Proof.
  intros H. apply (f_equal length) in H.
  rewrite !length_app in H. simpl in H. lia.
Qed.

(** After [prepareRequest] the request lacks none of the headers the
    function looks for. *)
Lemma prepared_lacks_nothing srv req :
  lacks "User-Agent" (prepareRequest srv req) = false
  /\ auto_appended req && lacks "Allow" (prepareRequest srv req) = false
  /\ auto_appended req && lacks "Supported" (prepareRequest srv req) = false.
Proof.
  split; [|split].
  - apply lacks_false. rewrite Req_GetHeaders_prepared.
    destruct (lacks "User-Agent" req) eqn:E.
    + rewrite (headers_named_single "User-Agent") by reflexivity.
      apply app_single_not_nil.
    + apply lacks_false in E. intros H. apply app_eq_nil in H as [H _].
      contradiction.
  - destruct (auto_appended req) eqn:Ea; [simpl|reflexivity].
    apply lacks_false. rewrite Req_GetHeaders_prepared, Ea.
    destruct (lacks "Allow" req) eqn:E.
    + simpl andb. cbv iota.
      rewrite (headers_named_single "Allow") by reflexivity.
      intros H. apply app_eq_nil in H as [_ H]. discriminate H.
    + apply lacks_false in E. intros H. apply app_eq_nil in H as [H _].
      contradiction.
  - destruct (auto_appended req) eqn:Ea; [simpl|reflexivity].
    apply lacks_false. rewrite Req_GetHeaders_prepared, Ea.
    destruct (lacks "Supported" req) eqn:E.
    + simpl andb. cbv iota.
      rewrite (headers_named_single "Supported" (SupportedHeader _))
        by reflexivity.
      intros H. apply app_eq_nil in H as [_ H].
      apply app_eq_nil in H as [_ H]. discriminate H.
    + apply lacks_false in E. intros H. apply app_eq_nil in H as [H _].
      contradiction.
Qed.

(** X3: [prepareRequest] is idempotent: a request that went through it
    once goes through it again unchanged, whatever its method. *)
Theorem prepareRequest_idempotent srv req :
  prepareRequest srv (prepareRequest srv req) = prepareRequest srv req.
Proof.
  destruct (prepareRequest_frame srv (prepareRequest srv req))
    as (Hm & Hu & Hb).
  apply Request_ext; auto.
  rewrite (prepareRequest_headers srv (prepareRequest srv req)).
  rewrite auto_appended_prepared.
  destruct (prepared_lacks_nothing srv req) as (-> & -> & ->).
  simpl. apply app_nil_r.
Qed.

(** X4: [prepareRequest] only appends: the headers the request came with
    stay in front, in their order, followed by at most an Allow, a Supported
    and a User-Agent header; method, request-URI and body are kept; and for
    a method other than INVITE, REGISTER, REFER and NOTIFY nothing but the
    User-Agent header is ever added. *)
Theorem prepareRequest_only_appends srv req :
  exists appended,
    req_headers (prepareRequest srv req) = req_headers req ++ appended
    /\ (length appended <= 3)%nat
    /\ (forall h, h ∈ appended ->
          h = GenericHeader "Allow" (Join (getAllowedMethods srv) ", ")
          \/ h = SupportedHeader (extensions srv)
          \/ h = GenericHeader "User-Agent" "GoSIP")
    /\ (Req.Method req ∉ [INVITE; REGISTER; REFER; NOTIFY] ->
        appended = [] \/ appended = [GenericHeader "User-Agent" "GoSIP"])
    /\ req_method (prepareRequest srv req) = req_method req
    /\ req_uri (prepareRequest srv req) = req_uri req
    /\ req_body (prepareRequest srv req) = req_body req.
Proof.
  eexists. split; [apply prepareRequest_headers|].
  destruct (prepareRequest_frame srv req) as (Hm & Hu & Hb).
  repeat split; auto.
  - destruct (auto_appended req && lacks "Allow" req),
      (auto_appended req && lacks "Supported" req),
      (lacks "User-Agent" req); simpl; lia.
  - intros h.
    destruct (auto_appended req && lacks "Allow" req),
      (auto_appended req && lacks "Supported" req),
      (lacks "User-Agent" req); simpl;
      rewrite ?elem_of_cons, elem_of_nil; intuition.
  - intros Hnot.
    assert (auto_appended req = false) as ->.
    { destruct (auto_appended req) eqn:E; [|reflexivity].
      now apply auto_appended_true in E. }
    simpl. destruct (lacks "User-Agent" req); auto.
Qed.

End PrepareRequestMore.

Lemma prepareRequest_only_appends_witness :
  exists appended,
    Sip.req_headers (Gosip.prepareRequest Sample.messaging Sample.bye)
    = Sip.req_headers Sample.bye ++ appended
    /\ (appended = [] \/ appended = [Sip.GenericHeader "User-Agent" "GoSIP"]).
Proof.
  destruct (prepareRequest_only_appends Sample.messaging Sample.bye)
    as (appended & Hh & _ & _ & Hbye & _).
  exists appended. split; [exact Hh|].
  apply Hbye. intros H.
  repeat (apply elem_of_cons in H as [H|H]; [discriminate H|]).
  now apply elem_of_nil in H.
Defined.

(** ** More on preparing a response *)

Section PrepareResponseMore.
Import Sip Gosip.
Context {Tx Handler : Type}.
Implicit Types (srv : Server Tx Handler) (res : Response).

Lemma update_first_fixed name f hs h rest :
  headers_named name hs = h :: rest -> f h = h ->
  update_first name f hs = hs.
Proof.
  intros E Hf. induction hs as [|h0 hs IH]; simpl in *; [reflexivity|].
  destruct (named name h0).
  - injection E as -> _. now rewrite Hf.
  - now rewrite IH.
Qed.

Lemma with_headers_same res : Res.with_headers (res_headers res) res = res.
Proof. now destruct res. Qed.

Lemma allow_step_frame c res res1 :
  allow_step c res = Ok res1 ->
  (forall name, name <> "Allow" ->
                Res.GetHeaders name res1 = Res.GetHeaders name res)
  /\ Res.GetHeaders "Allow" res1
     = GenericHeader "Allow" c :: tail (Res.GetHeaders "Allow" res)
  /\ res_status res1 = res_status res
  /\ res_reason res1 = res_reason res
  /\ res_body res1 = res_body res.
Proof.
  unfold allow_step, assign_Contents.
  destruct (Res.GetHeaders "Allow" res) as [|[n c0|o|q m|n v] rest] eqn:E;
    try discriminate; intros [= <-]; (split; [|split; [|auto]]).
  - intros name Hne. unfold Res.GetHeaders, Res.AppendHeader; simpl.
    apply headers_named_append_other. simpl. congruence.
  - unfold Res.GetHeaders, Res.AppendHeader in *; simpl.
    rewrite headers_named_append_same by reflexivity. now rewrite E.
  - intros name Hne. unfold Res.GetHeaders, Res.with_headers; simpl.
    apply headers_named_update_first_other; [assumption | now intros []].
  - unfold Res.GetHeaders, Res.with_headers in *; simpl.
    rewrite headers_named_update_first_same by (now intros []).
    rewrite E. apply headers_named_head in E. simpl in E. now subst n.
Qed.

Lemma supported_step_frame o res res2 :
  supported_step o res = Ok res2 ->
  (forall name, name <> "Supported" ->
                Res.GetHeaders name res2 = Res.GetHeaders name res)
  /\ Res.GetHeaders "Supported" res2
     = SupportedHeader o :: tail (Res.GetHeaders "Supported" res)
  /\ res_status res2 = res_status res
  /\ res_reason res2 = res_reason res
  /\ res_body res2 = res_body res.
Proof.
  unfold supported_step, assign_Options.
  destruct (Res.GetHeaders "Supported" res) as [|[n c0|o0|q m|n v] rest] eqn:E;
    try discriminate; intros [= <-]; (split; [|split; [|auto]]).
  - intros name Hne. unfold Res.GetHeaders, Res.AppendHeader; simpl.
    apply headers_named_append_other. simpl. congruence.
  - unfold Res.GetHeaders, Res.AppendHeader in *; simpl.
    rewrite headers_named_append_same by reflexivity. now rewrite E.
  - intros name Hne. unfold Res.GetHeaders, Res.with_headers; simpl.
    apply headers_named_update_first_other; [assumption | now intros []].
  - unfold Res.GetHeaders, Res.with_headers in *; simpl.
    rewrite headers_named_update_first_same by (now intros []).
    now rewrite E.
Qed.

Lemma prepareResponse_OPTIONS_split srv res res' :
  answers_OPTIONS res = true ->
  prepareResponse srv res = Ok res' ->
  exists res1,
    allow_step (Join (getAllowedMethods srv) ", ") res = Ok res1
    /\ supported_step (extensions srv) res1 = Ok res'.
Proof.
  intros Hopt. rewrite prepareResponse_steps, Hopt.
  destruct (allow_step _ res) as [res1|]; simpl; [eauto|discriminate].
Qed.

(** X5: [prepareResponse] writes the first Allow and the first Supported
    header only, and those only on a response whose CSeq names OPTIONS:
    every header of another name, every further Allow or Supported header,
    the status code, the reason phrase and the body leave as they came. *)
Theorem prepareResponse_touches_first_Allow_and_Supported srv res res' :
  prepareResponse srv res = Ok res' ->
  (answers_OPTIONS res = false -> res' = res)
  /\ (forall name, name <> "Allow" -> name <> "Supported" ->
                   Res.GetHeaders name res' = Res.GetHeaders name res)
  /\ tail (Res.GetHeaders "Allow" res') = tail (Res.GetHeaders "Allow" res)
  /\ tail (Res.GetHeaders "Supported" res')
     = tail (Res.GetHeaders "Supported" res)
  /\ res_status res' = res_status res
  /\ res_reason res' = res_reason res
  /\ res_body res' = res_body res.
Proof.
  intros Hret. destruct (answers_OPTIONS res) eqn:Hopt.
  - destruct (prepareResponse_OPTIONS_split srv res res' Hopt Hret)
      as (res1 & Ha & Hs).
    apply allow_step_frame in Ha as (Ha1 & Ha2 & Ha3 & Ha4 & Ha5).
    apply supported_step_frame in Hs as (Hs1 & Hs2 & Hs3 & Hs4 & Hs5).
    split; [discriminate|]. repeat split; try congruence.
    + intros name H1 H2. now rewrite Hs1, Ha1.
    + rewrite Hs1 by discriminate. now rewrite Ha2.
    + rewrite Hs2. simpl. now rewrite Ha1 by discriminate.
  - rewrite prepareResponse_other in Hret by assumption.
    injection Hret as <-. auto 10.
Qed.


End PrepareResponseMore.

Lemma prepareResponse_touches_first_Allow_and_Supported_witness :
  Sip.Res.GetHeaders "Via" Sample.options_ok_prepared
  = Sip.Res.GetHeaders "Via" Sample.options_ok.
Proof.
  apply (prepareResponse_touches_first_Allow_and_Supported
           Sample.messaging Sample.options_ok Sample.options_ok_prepared);
    [reflexivity | discriminate | discriminate].
Defined.


(** ** Shutdown *)

Section ShutdownFacts.
Import Sip Gosip.
Context {Tx Tp : Type} {L : Transaction.Layer Tx}
        {CX : Transaction.Cancellable Tx} {CP : Transaction.Cancellable Tp}
        {Handler : Type}.
Implicit Types (srv : Server Tx Handler) (tp : Tp).

Lemma shuttingDown_false srv : shuttingDown srv = false <-> inShutdown srv = 0.
Proof.
  unfold shuttingDown. rewrite negb_false_iff. apply Z.eqb_eq.
Qed.

Lemma Shutdown_running srv tp :
  shuttingDown srv = false ->
  Shutdown srv tp
  = (set_tx (Transaction.Cancel (tx srv)) srv, Transaction.Cancel tp).
Proof.
  intros H. unfold Shutdown. rewrite H.
  apply shuttingDown_false in H. destruct srv as [t n rh ext].
  simpl in *. subst n. reflexivity.
Qed.


End ShutdownFacts.


(** ** More on the connection *)

Section ConnectionMore.
Import Transport.
Context {C : Type} {N : Conn C}.
Implicit Types (conn : connection C).

Local Arguments Network : simpl never.
Local Arguments String : simpl never.
Local Arguments Log : simpl never.
Local Arguments warn_if : simpl never.

Ltac returned H :=
  repeat match type of H with
         | context [obind ?o _] =>
             let E := fresh "E" in
             destruct o eqn:E; simpl in H; [|discriminate H]
         end.

(** X8: what [LocalAddr], [RemoteAddr] and [Streamed] answer is fixed when
    the connection is built: no read, write, close or deadline call changes
    it.  In particular the address a datagram came from, returned by
    [ReadFrom], is not kept as the connection's remote address. *)
Theorem addresses_fixed_at_construction conn :
  (forall now n r, Read conn now n = Ok r -> identity r.2 = identity conn)
  /\ (forall now n r,
        ReadFrom conn now n = Ok r -> identity r.2 = identity conn)
  /\ (forall now buf r,
        Write conn now buf = Ok r -> identity r.2 = identity conn)
  /\ (forall now buf raddr r,
        WriteTo conn now buf raddr = Ok r -> identity r.2 = identity conn)
  /\ (forall r, Close conn = Ok r -> identity r.2 = identity conn)
  /\ (forall t, identity (SetDeadline conn t).2 = identity conn)
  /\ (forall t, identity (SetReadDeadline conn t).2 = identity conn)
  /\ (forall t, identity (SetWriteDeadline conn t).2 = identity conn).
Proof.
  repeat split.
  - intros now n r H. unfold Read in H.
    destruct (base_SetReadDeadline _ _) as [derr b]. simpl in *.
    returned H.
    destruct (base_Read n b) as [[data [cause|]] b2]; simpl in *;
      returned H; injection H as <-; reflexivity.
  - intros now n r H. unfold ReadFrom in H.
    destruct (base_SetReadDeadline _ _) as [derr b]. simpl in *.
    returned H.
    destruct (is_PacketConn b); [|discriminate H].
    destruct (base_ReadFrom n b) as [[[data ra] [cause|]] b2]; simpl in *;
      returned H; injection H as <-; reflexivity.
  - intros now buf r H. unfold Write in H.
    destruct (base_SetWriteDeadline _ _) as [derr b]. simpl in *.
    returned H.
    destruct (base_Write buf b) as [[k [cause|]] b2]; simpl in *;
      returned H; injection H as <-; reflexivity.
  - intros now buf raddr r H. unfold WriteTo in H.
    destruct (base_SetWriteDeadline _ _) as [derr b]. simpl in *.
    returned H.
    destruct (is_PacketConn b); [|discriminate H].
    destruct (base_WriteTo buf raddr b) as [[k [cause|]] b2]; simpl in *;
      returned H; injection H as <-; reflexivity.
  - intros r H. unfold Close in H.
    destruct (base_Close _) as [[cause|] b]; simpl in *;
      returned H; injection H as <-; reflexivity.
  - intros t. unfold SetDeadline. now destruct (base_SetDeadline _ _).
  - intros t. unfold SetReadDeadline. now destruct (base_SetReadDeadline _ _).
  - intros t. unfold SetWriteDeadline.
    now destruct (base_SetWriteDeadline _ _).
Qed.


Lemma warn_if_outcome derr conn :
  warn_if derr conn = Ok tt \/ warn_if derr conn = Panic nil_dereference.
Proof.
  unfold warn_if, Log, String, Network. destruct derr; [|auto].
  destruct (base_LocalAddr (baseConn conn)); simpl; auto.
Qed.


(** X11: [ReadFrom] and [WriteTo] assert that the socket is a packet
    socket; on one that is not (a stream socket) they never return: once
    the deadline is set they panic, without a read or write. *)
Theorem packet_calls_panic_on_stream_socket conn :
  (forall now n,
     is_PacketConn
       (base_SetReadDeadline (now + readTimeout) (baseConn conn)).2 = false ->
     exists msg, ReadFrom conn now n = Panic msg)
  /\
  (forall now buf raddr,
     is_PacketConn
       (base_SetWriteDeadline (now + writeTimeout) (baseConn conn)).2
     = false ->
     exists msg, WriteTo conn now buf raddr = Panic msg).
Proof.
  split.
  - intros now n. unfold ReadFrom.
    destruct (base_SetReadDeadline _ _) as [derr b0]. simpl. intros ->.
    destruct (warn_if_outcome derr (set_baseConn b0 conn)) as [->| ->];
      simpl; eauto.
  - intros now buf raddr. unfold WriteTo.
    destruct (base_SetWriteDeadline _ _) as [derr b0]. simpl. intros ->.
    destruct (warn_if_outcome derr (set_baseConn b0 conn)) as [->| ->];
      simpl; eauto.
Qed.

End ConnectionMore.

Lemma addresses_fixed_at_construction_witness :
  Transport.identity Sample.tcp_conn_closed
  = Transport.identity Sample.tcp_conn.
Proof.
  pose proof (addresses_fixed_at_construction Sample.tcp_conn)
    as (_ & _ & _ & _ & Hclose & _).
  apply (Hclose (None, Sample.tcp_conn_closed)). reflexivity.
Defined.



Lemma packet_calls_panic_on_stream_socket_witness :
  (exists msg, Transport.ReadFrom Sample.tcp_conn 0 1500 = Panic msg)
  /\ exists msg,
       Transport.WriteTo Sample.tcp_conn 0 ["v"%byte]
         (Some Sample.client_addr)
       = Panic msg.
Proof.
  pose proof (packet_calls_panic_on_stream_socket Sample.tcp_conn)
    as (Hfrom & Hto).
  split.
  - apply Hfrom. reflexivity.
  - apply Hto. reflexivity.
Defined.

(** ** Network names *)

Section NetworkNames.
Import Transport.

Lemma upper_not_lower c : is_lower (upper c) = false.
Proof.
  destruct c as [[] [] [] [] [] [] [] []]; reflexivity.
Qed.

Lemma upper_fixed c : is_lower c = false -> upper c = c.
Proof. unfold upper, is_lower. now intros ->. Qed.

Lemma ToUpper_has_no_lower s : has_lower (ToUpper s) = false.
Proof.
  induction s as [|c s IH]; simpl; [reflexivity|].
  now rewrite upper_not_lower, IH.
Qed.

Lemma ToUpper_fixed s : has_lower s = false -> ToUpper s = s.
Proof.
  induction s as [|c s IH]; simpl; [reflexivity|].
  intros H. apply orb_false_iff in H as [Hc Hs].
  now rewrite upper_fixed, IH.
Qed.

Lemma ToUpper_length s :
  String.length (ToUpper s) = String.length s.
Proof. induction s as [|c s IH]; simpl; congruence. Qed.


End NetworkNames.


(** ** More on the parser buffer *)

Section NextChunkMore.
Import Parser.
Local Open Scope nat_scope.
Implicit Types (pb : parserBuffer) (d data : list byte).

Lemma pipe_Read_closed room pb e :
  done pb = Some e -> pipe_Read room pb = ReadErr e pb.
Proof. intros H. unfold pipe_Read. now rewrite H. Qed.

Lemma reader_Read_done len_p pb d pb' :
  reader_Read len_p pb = ReadOk d pb' -> done pb' = done pb.
Proof.
  unfold reader_Read.
  destruct len_p as [|k]; [now intros [= <- <-]|].
  destruct (buffered pb) as [|b0 bs].
  - destruct (defaultBufSize <=? S k).
    + intros H. apply pipe_Read_ok in H as (_ & -> & -> & _). reflexivity.
    + destruct (pipe_Read defaultBufSize pb) as [data pb1| |] eqn:Ep;
        [|discriminate|discriminate].
      apply pipe_Read_ok in Ep as (_ & -> & Hd & _).
      destruct data; intros [= <- <-]; simpl; auto.
  - now intros [= <- <-].
Qed.

(** [NextChunk] as C8 has it, for use below. *)
Lemma NextChunk_reads pb (n : nat) :
  n <= length (stream pb) ->
  exists pb',
    NextChunk pb (Z.of_nat n) = Some (Returned (take n (stream pb)) None pb')
    /\ stream pb' = drop n (stream pb).
Proof.
  intros Hav. unfold NextChunk.
  destruct (Z.of_nat n <? 0)%Z eqn:E; [apply Z.ltb_lt in E; lia|].
  rewrite Nat2Z.id.
  destruct (NextChunk_loop_reads (iterations n pb) n (replicate n x00) 0 pb)
    as (pb' & Hloop & Hstream).
  - apply length_replicate.
  - lia.
  - lia.
  - unfold iterations. lia.
  - exists pb'. rewrite Hloop, Hstream, Nat.sub_0_r, take_0. auto.
Qed.

(** X13: the lengths at the edge: [NextChunk(0)] returns the empty chunk
    with a nil error at once, without a read, whether the buffer is empty,
    waiting or stopped; and a negative length panics in [make]. *)
Theorem NextChunk_degenerate_lengths pb :
  NextChunk pb 0 = Some (Returned [] None pb)
  /\ forall n : Z, (n < 0)%Z ->
       NextChunk pb n = Some (Panicked "makeslice: len out of range").
Proof.
  split.
  - unfold NextChunk, iterations. simpl. now destruct (length (pending pb)).
  - intros n Hn. unfold NextChunk.
    now rewrite (proj2 (Z.ltb_lt n 0) Hn).
Qed.

Lemma NextChunk_loop_closed fuel : forall n data total pb e,
  done pb = Some e ->
  total + length (buffered pb) < n ->
  length data = n ->
  2 <= fuel \/ (1 <= fuel /\ buffered pb = []) ->
  NextChunk_loop fuel n data total pb
  = Some (Returned [] (Some e) (mkParserBuffer [] (pending pb) (Some e))).
Proof.
  induction fuel as [|fuel IH]; intros n data total pb e Hd Hshort Hdata Hfuel;
    [lia|].
  simpl. destruct (n <=? total) eqn:Ele; [apply Nat.leb_le in Ele; lia|].
  assert (length (drop total data) = n - total) as ->
    by (rewrite length_drop; lia).
  unfold reader_Read.
  destruct (n - total) as [|k] eqn:Ek; [lia|].
  destruct (buffered pb) as [|b0 bs] eqn:Eb.
  - rewrite !(pipe_Read_closed _ pb e Hd).
    destruct (defaultBufSize <=? S k); destruct pb; simpl in *;
      now subst.
  - simpl in Hshort.
    assert (take (S k) (b0 :: bs) = b0 :: bs) as Ht
      by (apply take_ge; simpl; lia).
    assert (drop (S k) (b0 :: bs) = []) as Hdr
      by (apply drop_ge; simpl; lia).
    rewrite Ht, Hdr.
    rewrite (IH n _ _ _ e); simpl; auto.
    + lia.
    + rewrite length_store; simpl; lia.
    + right. split; [|reflexivity]. destruct Hfuel as [H|[_ H]]; [lia|].
      discriminate H.
Qed.

Lemma iterations_closed pb (n : nat) :
  length (buffered pb) < n ->
  2 <= iterations n pb \/ (1 <= iterations n pb /\ buffered pb = []).
Proof.
  intros H. unfold iterations.
  destruct (buffered pb) as [|b0 bs]; simpl in *;
    [right; split; [lia|reflexivity] | left; lia].
Qed.

(** X14: on a buffer whose pipe is closed, a chunk longer than what is
    buffered cannot be had: [NextChunk] returns the empty string with the
    pipe's error, and the bytes that were buffered are gone, read and not
    returned. *)
Theorem NextChunk_short_on_closed_pipe pb (n : Z) e :
  done pb = Some e ->
  (Z.of_nat (length (buffered pb)) < n)%Z ->
  NextChunk pb n
  = Some (Returned [] (Some e) (mkParserBuffer [] (pending pb) (Some e))).
Proof.
  intros Hd Hshort. unfold NextChunk.
  destruct (n <? 0)%Z eqn:E; [apply Z.ltb_lt in E; lia|].
  apply NextChunk_loop_closed; auto.
  - simpl. lia.
  - apply length_replicate.
  - apply iterations_closed. lia.
Qed.

Lemma NextChunk_loop_blocks fuel : forall n data total pb,
  done pb = None ->
  total + length (stream pb) < n ->
  length data = n ->
  (n - total) + length (pending pb) <= fuel ->
  NextChunk_loop fuel n data total pb = Some Blocked.
Proof.
  induction fuel as [|fuel IH]; intros n data total pb Hd Hshort Hdata Hfuel;
    [lia|].
  simpl. destruct (n <=? total) eqn:Ele; [apply Nat.leb_le in Ele; lia|].
  assert (length (drop total data) = n - total) as ->
    by (rewrite length_drop; lia).
  destruct (reader_Read (n - total) pb) as [d pb1|err pb1|] eqn:Hread.
  - pose proof (reader_Read_done _ _ _ _ Hread) as Hd1.
    apply reader_Read_ok in Hread as (Hs & Hlen & Hp & Hp').
    assert (length (stream pb) = length d + length (stream pb1)) as Hl
      by (rewrite Hs; apply length_app).
    apply IH.
    + congruence.
    + lia.
    + rewrite length_store; lia.
    + destruct d as [|x xs]; simpl in *; [|lia].
      specialize (Hp' ltac:(lia) eq_refl). lia.
  - exfalso. unfold reader_Read, pipe_Read in Hread. rewrite Hd in Hread.
    destruct (n - total); [discriminate|].
    destruct (buffered pb); [|discriminate].
    destruct (pending pb) as [|w rest];
      destruct (defaultBufSize <=? S n0); try discriminate.
    now destruct (take defaultBufSize w).
  - reflexivity.
Qed.

(** X15: on an open pipe that holds fewer bytes than asked for, [NextChunk]
    does not return: having taken what there is, it waits for a writer. *)
Theorem NextChunk_waits_for_missing_bytes pb (n : Z) :
  done pb = None ->
  (Z.of_nat (length (stream pb)) < n)%Z ->
  NextChunk pb n = Some Blocked.
Proof.
  intros Hd Hshort. unfold NextChunk.
  destruct (n <? 0)%Z eqn:E; [apply Z.ltb_lt in E; lia|].
  apply NextChunk_loop_blocks; auto.
  - simpl. lia.
  - apply length_replicate.
  - unfold iterations. lia.
Qed.

(** X16: chunks compose: a chunk of n bytes followed by a chunk of m bytes
    gives, end to end, the bytes one chunk of n + m would have given, and
    leaves the same bytes to read. *)
Theorem NextChunk_twice pb (n m : nat) :
  n + m <= length (stream pb) ->
  exists a b pb1 pb2,
    NextChunk pb (Z.of_nat n) = Some (Returned a None pb1)
    /\ NextChunk pb1 (Z.of_nat m) = Some (Returned b None pb2)
    /\ a ++ b = take (n + m) (stream pb)
    /\ stream pb2 = drop (n + m) (stream pb).
Proof.
  intros Hav.
  destruct (NextChunk_reads pb n) as (pb1 & H1 & Hs1); [lia|].
  destruct (NextChunk_reads pb1 m) as (pb2 & H2 & Hs2).
  { rewrite Hs1, length_drop. lia. }
  exists (take n (stream pb)), (take m (stream pb1)), pb1, pb2.
  split; [exact H1|]. split; [exact H2|]. split.
  - rewrite Hs1. apply take_take_drop.
  - rewrite Hs2, Hs1. apply drop_drop.
Qed.

Lemma Write_all_open writes pb :
  done pb = None ->
  Write_all writes pb
  = mkParserBuffer (buffered pb) (pending pb ++ writes) None.
Proof.
  unfold Write_all. revert pb.
  induction writes as [|w writes IH]; intros pb Hd; cbn [fold_left].
  - rewrite app_nil_r. destruct pb; simpl in *; now subst.
  - unfold Write at 2. rewrite Hd. cbn [snd]. rewrite IH by reflexivity.
    simpl. now rewrite <- app_assoc.
Qed.

(** X17: what is written comes out: after any run of writes into a new
    parser buffer, however the bytes were cut into writes, [NextChunk] of
    their total length returns them all, in order, and leaves nothing to
    read. *)
Theorem written_bytes_are_read_back (writes : list (list byte)) :
  exists pb',
    NextChunk (Write_all writes newParserBuffer)
      (Z.of_nat (length (List.concat writes)))
    = Some (Returned (List.concat writes) None pb')
    /\ stream pb' = [].
Proof.
  rewrite Write_all_open by reflexivity. simpl.
  set (pb := mkParserBuffer [] writes None).
  assert (stream pb = List.concat writes) as Hs by reflexivity.
  destruct (NextChunk_reads pb (length (List.concat writes)))
    as (pb' & Hread & Hrest); [rewrite Hs; lia|].
  exists pb'. rewrite Hread, Hrest, Hs.
  now rewrite take_ge, drop_ge by lia.
Qed.

(** X18: after [Stop] the buffer never makes a caller wait: [NextChunk]
    still returns what the reader had buffered, fails with
    [io.ErrClosedPipe] when asked for more, and never blocks; writes that
    were waiting are not delivered, further ones fail with the same error
    and change nothing; stopping again changes nothing. *)
Theorem stopped_buffer_never_blocks pb :
  stream (Stop pb) = buffered pb
  /\ (forall n : nat,
        n <= length (buffered pb) ->
        exists pb',
          NextChunk (Stop pb) (Z.of_nat n)
          = Some (Returned (take n (buffered pb)) None pb'))
  /\ (forall n : Z,
        (Z.of_nat (length (buffered pb)) < n)%Z ->
        NextChunk (Stop pb) n
        = Some (Returned [] (Some ErrClosedPipe)
                  (mkParserBuffer [] (pending pb) (Some ErrClosedPipe))))
  /\ (forall n : Z, NextChunk (Stop pb) n <> Some Blocked)
  /\ (forall data, Write data (Stop pb) = (Some ErrClosedPipe, Stop pb))
  /\ Stop (Stop pb) = Stop pb.
Proof.
  assert (stream (Stop pb) = buffered pb) as Hs
    by (unfold stream; simpl; apply app_nil_r).
  split; [exact Hs|]. split; [|split; [|split; [|split]]].
  - intros n Hn.
    destruct (NextChunk_reads (Stop pb) n) as (pb' & H & _);
      [rewrite Hs; lia|].
    exists pb'. now rewrite H, Hs.
  - intros n Hn.
    unfold NextChunk.
    destruct (n <? 0)%Z eqn:E; [apply Z.ltb_lt in E; simpl in Hn; lia|].
    apply (NextChunk_loop_closed _ _ _ _ (Stop pb) ErrClosedPipe);
      simpl; auto; try lia.
    + apply length_replicate.
    + apply (iterations_closed (Stop pb)). simpl. lia.
  - intros n.
    destruct (Z_lt_le_dec n 0) as [Hneg|Hpos].
    + unfold NextChunk. now rewrite (proj2 (Z.ltb_lt n 0) Hneg).
    + destruct (Z_lt_le_dec (Z.of_nat (length (buffered pb))) n) as [Hl|Hl].
      * unfold NextChunk.
        destruct (n <? 0)%Z eqn:E; [apply Z.ltb_lt in E; lia|].
        rewrite (NextChunk_loop_closed _ _ _ _ (Stop pb) ErrClosedPipe);
          simpl; auto; try lia; try discriminate.
        -- apply length_replicate.
        -- apply (iterations_closed (Stop pb)). simpl. lia.
      * destruct (NextChunk_reads (Stop pb) (Z.to_nat n)) as (pb' & H & _);
          [rewrite Hs; lia|].
        rewrite Z2Nat.id in H by lia. now rewrite H.
  - reflexivity.
  - reflexivity.
Qed.

End NextChunkMore.

Lemma NextChunk_degenerate_lengths_witness :
  Parser.NextChunk Sample.fed (-1)
  = Some (Parser.Panicked "makeslice: len out of range").
Proof.
  apply (proj2 (NextChunk_degenerate_lengths Sample.fed)). lia.
Defined.

Lemma NextChunk_short_on_closed_pipe_witness :
  Parser.NextChunk Sample.fed_stopped 2
  = Some (Parser.Returned [] (Some Parser.ErrClosedPipe)
            (Parser.mkParserBuffer [] (Parser.pending Sample.fed_stopped)
               (Some Parser.ErrClosedPipe))).
Proof.
  apply (NextChunk_short_on_closed_pipe Sample.fed_stopped 2).
  - reflexivity.
  - simpl. lia.
Defined.

Lemma NextChunk_waits_for_missing_bytes_witness :
  Parser.NextChunk Sample.fed 6 = Some Parser.Blocked.
Proof.
  apply (NextChunk_waits_for_missing_bytes Sample.fed 6).
  - reflexivity.
  - simpl. lia.
Defined.

Lemma NextChunk_twice_witness :
  exists a b pb1 pb2,
    Parser.NextChunk Sample.fed 1 = Some (Parser.Returned a None pb1)
    /\ Parser.NextChunk pb1 3 = Some (Parser.Returned b None pb2)
    /\ a ++ b = take 4 (Parser.stream Sample.fed)
    /\ Parser.stream pb2 = drop 4 (Parser.stream Sample.fed).
Proof.
  apply (NextChunk_twice Sample.fed 1 3). simpl. lia.
Defined.

Lemma stopped_buffer_never_blocks_witness :
  Parser.NextChunk (Parser.Stop Sample.fed) 4
  = Some (Parser.Returned [] (Some Parser.ErrClosedPipe)
            (Parser.mkParserBuffer [] (Parser.pending Sample.fed)
               (Some Parser.ErrClosedPipe))).
Proof.
  pose proof (stopped_buffer_never_blocks Sample.fed) as (_ & _ & H & _).
  apply (H 4%Z). simpl. lia.
Defined.

(** ** Lines *)

Section NextLineProps.
Import Parser.
Local Open Scope nat_scope.
Implicit Types (pb : parserBuffer) (d data line rest : list byte).
Local Arguments defaultBufSize : simpl never.
Local Arguments maxConsecutiveEmptyReads : simpl never.
Local Arguments fill : simpl never.
Local Arguments ReadSlice : simpl never.
Local Arguments ReadString : simpl never.
Local Arguments ReadByte : simpl never.
Local Arguments NextLine : simpl never.

Lemma defaultBufSize_pos : 0 < defaultBufSize.
Proof. unfold defaultBufSize. lia. Qed.

Lemma byte_eqb_refl (b : byte) : Byte.eqb b b = true.
Proof. now apply Byte.byte_dec_lb. Qed.

Lemma byte_eqb_neq (b c : byte) : b <> c -> Byte.eqb b c = false.
Proof.
  intros H. destruct (Byte.eqb b c) eqn:E; [|reflexivity].
  now apply Byte.byte_dec_bl in E.
Qed.

Lemma IndexByte_None s c : c ∉ s -> IndexByte s c = None.
Proof.
  induction s as [|b s IH]; [reflexivity|].
  intros H. apply not_elem_of_cons in H as [Hb Hs]. simpl.
  rewrite byte_eqb_neq by congruence. now rewrite IH.
Qed.

Lemma IndexByte_Some s c s' :
  c ∉ s -> IndexByte (s ++ c :: s') c = Some (length s).
Proof.
  induction s as [|b s IH]; simpl.
  - now rewrite byte_eqb_refl.
  - intros H. apply not_elem_of_cons in H as [Hb Hs].
    rewrite byte_eqb_neq by congruence. now rewrite IH.
Qed.

Lemma stream_open pb :
  done pb = None -> stream pb = buffered pb ++ List.concat (pending pb).
Proof. intros H. unfold stream. now rewrite H. Qed.

Lemma stream_closed pb e : done pb = Some e -> stream pb = buffered pb.
Proof. intros H. unfold stream. rewrite H. apply app_nil_r. Qed.

Lemma length_stream pb : length (stream pb) <= waiting pb.
Proof.
  unfold stream, waiting. rewrite length_app.
  destruct (done pb); simpl; lia.
Qed.

(** On an open pipe with bytes waiting, [fill] gets at least one of them
    into the buffer, provided fewer than a hundred empty writes are in its
    way. *)
Lemma fill_loop_fills i : forall pb,
  done pb = None ->
  empty_writes pb < i ->
  length (buffered pb) < defaultBufSize ->
  List.concat (pending pb) <> [] ->
  exists d pending',
    fill_loop i pb = Filled (mkParserBuffer (buffered pb ++ d) pending' None)
    /\ d <> []
    /\ length (buffered pb ++ d) <= defaultBufSize
    /\ List.concat (pending pb) = d ++ List.concat pending'
    /\ length (filter (fun w => w = []) pending') <= empty_writes pb.
Proof.
  induction i as [|i IH]; intros pb Hd He Hroom Hcat; [lia|].
  simpl. unfold pipe_Read. rewrite Hd.
  unfold empty_writes in *.
  destruct (pending pb) as [|w ws] eqn:Ep; [now contradiction Hcat|].
  destruct w as [|x w].
  - rewrite take_nil, drop_nil.
    rewrite filter_cons_True in He by reflexivity. simpl in He.
    destruct (IH (mkParserBuffer (buffered pb) ws None))
      as (d & pending' & Hfill & Hne & Hlen & Hc & Hem); simpl; auto.
    + unfold empty_writes. simpl. lia.
    + exists d, pending'. simpl in *. rewrite Hfill.
      repeat split; auto; lia.
  - destruct (defaultBufSize - length (buffered pb)) as [|r] eqn:Er; [lia|].
    cbn [take]. cbn [drop].
    eexists (x :: take r w), _. split; [reflexivity|].
    rewrite filter_cons_False by discriminate.
    repeat split.
    + discriminate.
    + rewrite length_app. simpl. rewrite length_take. lia.
    + simpl. f_equal.
      transitivity ((take r w ++ drop r w) ++ List.concat ws);
        [now rewrite take_drop|].
      rewrite <- app_assoc. now destruct (drop r w).
    + destruct (drop r w); cbn [pending]; [apply Nat.le_refl|].
      rewrite filter_cons_False by discriminate. apply Nat.le_refl.
Qed.

Lemma fill_closed pb e : done pb = Some e -> fill pb = FillErr e pb.
Proof.
  intros H. unfold fill.
  pose proof (eq_refl maxConsecutiveEmptyReads) as E.
  unfold maxConsecutiveEmptyReads at 2 in E. rewrite E. simpl.
  now rewrite (pipe_Read_closed _ pb e H).
Qed.

Lemma not_elem_of_drop {A} (c : A) n (l : list A) : c ∉ l -> c ∉ drop n l.
Proof.
  intros H Hin. apply H. rewrite <- (take_drop n l).
  apply elem_of_app. now right.
Qed.

Lemma not_elem_of_take {A} (c : A) n (l : list A) : c ∉ l -> c ∉ take n l.
Proof.
  intros H Hin. apply H. rewrite <- (take_drop n l).
  apply elem_of_app. now left.
Qed.

(** Where the first delimiter of the stream is: in the buffer, or still on
    the pipe, which is open then. *)
Lemma stream_split pb pre (delim : byte) post :
  stream pb = pre ++ delim :: post ->
  (exists k, buffered pb = pre ++ delim :: k
             /\ stream (mkParserBuffer k (pending pb) (done pb)) = post)
  \/ (exists k, pre = buffered pb ++ k
                /\ done pb = None
                /\ List.concat (pending pb) = k ++ delim :: post).
Proof.
  unfold stream. simpl. intros Hs.
  apply app_eq_inv in Hs as [(k & Hb & Hk)|(k & Hb & Hk)].
  - destruct k as [|c k].
    + right. exists []. rewrite app_nil_r in *. simpl in Hk.
      destruct (done pb); [discriminate|]. auto.
    + left. injection Hk as <- ->. eauto.
  - right. exists k. destruct (done pb); [now destruct k|]. auto.
Qed.

Lemma ReadSlice_loop_unfold fuel delim s pb :
  ReadSlice_loop fuel delim s pb
  = match IndexByte (drop s (buffered pb)) delim with
    | Some i =>
        Some (SliceOk (take (i + s + 1) (buffered pb))
                (mkParserBuffer (drop (i + s + 1) (buffered pb)) (pending pb)
                   (done pb)))
    | None =>
        if defaultBufSize <=? length (buffered pb) then
          Some (SliceFull (buffered pb)
                  (mkParserBuffer [] (pending pb) (done pb)))
        else
          match fuel with
          | O => None
          | S fuel =>
              match fill pb with
              | Filled pb' =>
                  ReadSlice_loop fuel delim (length (buffered pb)) pb'
              | FillErr err pb' =>
                  Some (SliceErr (buffered pb') err
                          (mkParserBuffer [] (pending pb') (done pb')))
              | FillBlocks => Some SliceBlocks
              end
          end
    end.
Proof. destruct fuel; reflexivity. Qed.

Lemma ReadSlice_loop_found fuel delim s pb pre k :
  buffered pb = pre ++ delim :: k ->
  delim ∉ pre ->
  s <= length pre ->
  ReadSlice_loop fuel delim s pb
  = Some (SliceOk (pre ++ [delim]) (mkParserBuffer k (pending pb) (done pb))).
Proof.
  intros Hb Hpre Hs. rewrite ReadSlice_loop_unfold, Hb.
  rewrite drop_app_le by lia.
  rewrite IndexByte_Some by now apply not_elem_of_drop.
  rewrite length_drop.
  replace (length pre - s + s + 1) with (length (pre ++ [delim]))
    by (rewrite length_app; simpl; lia).
  rewrite (cons_middle delim pre k), app_assoc.
  now rewrite take_app_length, drop_app_length.
Qed.

Lemma ReadSlice_loop_full fuel delim s pb :
  delim ∉ buffered pb ->
  defaultBufSize <= length (buffered pb) ->
  ReadSlice_loop fuel delim s pb
  = Some (SliceFull (buffered pb) (mkParserBuffer [] (pending pb) (done pb))).
Proof.
  intros Hnb Hf.
  rewrite ReadSlice_loop_unfold.
  rewrite (IndexByte_None _ _ (not_elem_of_drop _ s _ Hnb)).
  now rewrite (proj2 (Nat.leb_le _ _) Hf).
Qed.

(** [ReadSlice] when the delimiter is on its way: the bytes up to and
    including it when that is less than a buffer away, a full buffer
    otherwise. *)
Lemma ReadSlice_loop_spec fuel delim : forall s pb pre post,
  within_size pb ->
  empty_writes pb < maxConsecutiveEmptyReads ->
  stream pb = pre ++ delim :: post ->
  delim ∉ pre ->
  s <= length pre ->
  defaultBufSize - length (buffered pb) <= fuel ->
  exists pb',
    within_size pb'
    /\ empty_writes pb' <= empty_writes pb
    /\ if decide (length pre < defaultBufSize) then
         ReadSlice_loop fuel delim s pb = Some (SliceOk (pre ++ [delim]) pb')
         /\ stream pb' = post
       else
         ReadSlice_loop fuel delim s pb
         = Some (SliceFull (take defaultBufSize pre) pb')
         /\ stream pb' = drop defaultBufSize pre ++ delim :: post.
Proof.
  induction fuel as [|fuel IH]; intros s pb pre post Hw He Hs Hpre Hsp Hfuel.
  all: unfold within_size in *.
  all: destruct (stream_split _ _ _ _ Hs)
         as [(k & Hb & Hk)|(k & Hb & Hd & Hk)].
  1, 3: exists (mkParserBuffer k (pending pb) (done pb)).
  1, 2: assert (length pre < length (buffered pb))
          by (rewrite Hb, length_app; simpl; lia).
  1, 2: split; [simpl; rewrite Hb, length_app in Hw; simpl in Hw; lia|].
  1, 2: split; [apply Nat.le_refl|].
  1, 2: destruct (decide (length pre < defaultBufSize)); [|lia].
  1, 2: split; [now apply ReadSlice_loop_found|exact Hk].
  all: assert (length pre = length (buffered pb) + length k) as Hl
         by (rewrite Hb; apply length_app).
  all: assert (delim ∉ buffered pb) as Hnb
         by (rewrite Hb in Hpre; now apply not_elem_of_app in Hpre).
  all: destruct (decide (defaultBufSize <= length (buffered pb))) as [Hf|Hf].
  1, 3: exists (mkParserBuffer [] (pending pb) (done pb)).
  1, 2: split; [simpl; lia|]; split; [apply Nat.le_refl|].
  1, 2: destruct (decide (length pre < defaultBufSize)); [lia|].
  1, 2: rewrite ReadSlice_loop_full by assumption.
  1, 2: rewrite Hb, take_app_length', drop_app_length' by lia.
  1, 2: split; [reflexivity|]; unfold stream; simpl; now rewrite Hd.
  - lia.
  - destruct (fill_loop_fills maxConsecutiveEmptyReads pb)
      as (d & pending' & Hfill & Hne & Hlen & Hc & Hem); auto; [lia| |].
    { rewrite Hk. now destruct k. }
    set (pb1 := mkParserBuffer (buffered pb ++ d) pending' None) in *.
    destruct (IH (length (buffered pb)) pb1 pre post)
      as (pb' & Hw' & He' & Hres); auto.
    + unfold empty_writes at 1. simpl. lia.
    + rewrite <- Hs, (stream_open pb Hd), Hc.
      unfold stream. simpl. now rewrite app_assoc.
    + lia.
    + simpl. rewrite length_app.
      assert (0 < length d) by (destruct d; simpl; [congruence|lia]). lia.
    + exists pb'. split; [exact Hw'|]. split.
      { unfold empty_writes, pb1 in *. simpl in *. lia. }
      assert (ReadSlice_loop (S fuel) delim s pb
              = ReadSlice_loop fuel delim (length (buffered pb)) pb1) as ->;
        [|exact Hres].
      rewrite ReadSlice_loop_unfold,
        (IndexByte_None _ _ (not_elem_of_drop _ s _ Hnb)).
      destruct (defaultBufSize <=? length (buffered pb)) eqn:E;
        [apply Nat.leb_le in E; lia|].
      unfold fill. now rewrite Hfill.
Qed.

Lemma collectFragments_unfold fuel delim full pb :
  collectFragments fuel delim full pb
  = match ReadSlice delim pb with
    | None => None
    | Some (SliceOk frag pb) => Some (StringRead (full ++ frag) None pb)
    | Some (SliceErr frag err pb) =>
        Some (StringRead (full ++ frag) (Some err) pb)
    | Some (SliceFull frag pb) =>
        match fuel with
        | O => None
        | S fuel => collectFragments fuel delim (full ++ frag) pb
        end
    | Some SliceBlocks => Some StringBlocks
    end.
Proof. destruct fuel; reflexivity. Qed.

Lemma collectFragments_spec fuel delim : forall full pb pre post,
  within_size pb ->
  empty_writes pb < maxConsecutiveEmptyReads ->
  stream pb = pre ++ delim :: post ->
  delim ∉ pre ->
  length pre < S fuel * defaultBufSize ->
  exists pb',
    collectFragments fuel delim full pb
    = Some (StringRead (full ++ pre ++ [delim]) None pb')
    /\ stream pb' = post
    /\ within_size pb'
    /\ empty_writes pb' <= empty_writes pb.
Proof.
  induction fuel as [|fuel IH]; intros full pb pre post Hw He Hs Hpre Hlen.
  all: destruct (ReadSlice_loop_spec defaultBufSize delim 0 pb pre post)
         as (pb1 & Hw1 & He1 & Hres); auto; try lia.
  all: destruct (decide (length pre < defaultBufSize)) as [Hl|Hl];
         destruct Hres as [Hres Hs1].
  all: rewrite collectFragments_unfold; unfold ReadSlice; rewrite Hres.
  1, 3: exists pb1; auto.
  - rewrite Nat.mul_1_l in Hlen. lia.
  - destruct (IH (full ++ take defaultBufSize pre) pb1
                (drop defaultBufSize pre) post)
      as (pb' & Hcol & Hs' & Hw' & He'); auto.
    + lia.
    + now apply not_elem_of_drop.
    + rewrite length_drop. rewrite Nat.mul_succ_l in Hlen. lia.
    + exists pb'. rewrite Hcol.
      rewrite <- (app_assoc full), (app_assoc (take _ pre)), take_drop.
      repeat split; auto. lia.
Qed.

Lemma ReadString_spec delim pb pre post :
  within_size pb ->
  empty_writes pb < maxConsecutiveEmptyReads ->
  stream pb = pre ++ delim :: post ->
  delim ∉ pre ->
  exists pb',
    ReadString delim pb = Some (StringRead (pre ++ [delim]) None pb')
    /\ stream pb' = post
    /\ within_size pb'
    /\ empty_writes pb' <= empty_writes pb.
Proof.
  intros Hw He Hs Hpre. unfold ReadString.
  apply (collectFragments_spec _ delim [] pb pre post); auto.
  pose proof (length_stream pb) as Hl. rewrite Hs, length_app in Hl.
  pose proof defaultBufSize_pos. simpl in *. nia.
Qed.

Lemma ReadByte_spec pb b tl :
  within_size pb ->
  empty_writes pb < maxConsecutiveEmptyReads ->
  stream pb = b :: tl ->
  exists pb',
    ReadByte pb = Some (ByteRead b pb')
    /\ stream pb' = tl
    /\ within_size pb'
    /\ empty_writes pb' <= empty_writes pb.
Proof.
  intros Hw He Hs. unfold within_size in *.
  destruct (stream_split pb [] b tl Hs) as [(k & Hb & Hk)|(k & Hb & Hd & Hk)].
  - exists (mkParserBuffer k (pending pb) (done pb)).
    unfold ReadByte. cbn [ReadByte_loop]. rewrite Hb.
    repeat split; auto. rewrite Hb in Hw. cbn [app length buffered] in *. lia.
  - symmetry in Hb. apply app_eq_nil in Hb as [Hb ->]. simpl in Hk.
    destruct (fill_loop_fills maxConsecutiveEmptyReads pb)
      as (d & pending' & Hfill & Hne & Hlen & Hc & Hem); auto.
    { rewrite Hb. apply defaultBufSize_pos. }
    { now rewrite Hk. }
    rewrite Hb in Hfill, Hlen. cbn [app] in Hfill, Hlen.
    destruct d as [|x d]; [congruence|].
    rewrite Hk in Hc. injection Hc as -> ->.
    exists (mkParserBuffer d pending' None).
    unfold ReadByte. cbn [ReadByte_loop]. rewrite Hb.
    unfold fill. rewrite Hfill. cbn [ReadByte_loop buffered pending done].
    unfold empty_writes in *. cbn [length buffered pending] in *.
    repeat split; auto. lia.
Qed.

Lemma NextLine_loop_step fuel buffer pb seg c tl :
  within_size pb ->
  empty_writes pb < maxConsecutiveEmptyReads ->
  stream pb = seg ++ CR :: c :: tl ->
  CR ∉ seg ->
  exists pb',
    stream pb' = tl
    /\ within_size pb'
    /\ empty_writes pb' <= empty_writes pb
    /\ NextLine_loop (S fuel) buffer pb
       = if Byte.eqb c LF then Some (LineReturned (buffer ++ seg) None pb')
         else NextLine_loop fuel (buffer ++ seg ++ [CR; c]) pb'.
Proof.
  intros Hw He Hs Hseg.
  destruct (ReadString_spec CR pb seg (c :: tl))
    as (pb1 & Hstr & Hs1 & Hw1 & He1); auto.
  destruct (ReadByte_spec pb1 c tl) as (pb2 & Hbyte & Hs2 & Hw2 & He2);
    auto; [lia|].
  exists pb2. split; [exact Hs2|]. split; [exact Hw2|]. split; [lia|].
  cbn [NextLine_loop]. rewrite Hstr, Hbyte.
  replace ((buffer ++ seg ++ [CR]) ++ [c])
    with ((buffer ++ seg) ++ [CR; c])
    by (now rewrite <- !app_assoc).
  destruct (Byte.eqb c LF).
  - rewrite length_app. simpl.
    now rewrite Nat.add_sub, take_app_length.
  - now rewrite <- app_assoc.
Qed.

(** X19: a line that is on its way is returned: when the bytes to read
    start with a line free of CR, then CR LF, [NextLine] returns that line
    without the CR LF, with a nil error, and leaves what follows the CR LF
    to read.  This holds however the bytes are cut into writes and however
    long the line is, as long as fewer than a hundred empty writes are
    waiting on the pipe. *)
Theorem NextLine_returns_the_line pb line rest :
  within_size pb ->
  empty_writes pb < maxConsecutiveEmptyReads ->
  stream pb = line ++ CR :: LF :: rest ->
  CR ∉ line ->
  exists pb',
    NextLine pb = Some (LineReturned line None pb')
    /\ stream pb' = rest
    /\ within_size pb'
    /\ empty_writes pb' <= empty_writes pb.
Proof.
  intros Hw He Hs Hline. unfold NextLine.
  destruct (NextLine_loop_step (waiting pb) [] pb line LF rest)
    as (pb' & Hs' & Hw' & He' & Hloop); auto.
  exists pb'. rewrite Hloop, byte_eqb_refl. auto.
Qed.


Lemma ReadSlice_closed delim pb e :
  done pb = Some e ->
  delim ∉ buffered pb ->
  length (buffered pb) < defaultBufSize ->
  ReadSlice delim pb
  = Some (SliceErr (buffered pb) e
            (mkParserBuffer [] (pending pb) (Some e))).
Proof.
  intros Hd Hnb Hlen. unfold ReadSlice.
  rewrite ReadSlice_loop_unfold, IndexByte_None
    by now apply not_elem_of_drop.
  destruct (defaultBufSize <=? length (buffered pb)) eqn:E;
    [apply Nat.leb_le in E; lia|].
  pose proof defaultBufSize_pos.
  destruct defaultBufSize; [lia|].
  now rewrite (fill_closed pb e Hd), Hd.
Qed.

Lemma ReadString_closed delim pb e :
  done pb = Some e ->
  delim ∉ buffered pb ->
  ReadString delim pb
  = Some (StringRead (buffered pb) (Some e)
            (mkParserBuffer [] (pending pb) (Some e))).
Proof.
  intros Hd Hnb. unfold ReadString.
  pose proof defaultBufSize_pos as Hpos.
  rewrite collectFragments_unfold.
  destruct (decide (length (buffered pb) < defaultBufSize)) as [Hl|Hl].
  - now rewrite (ReadSlice_closed delim pb e).
  - unfold ReadSlice at 1.
    rewrite ReadSlice_loop_full by (auto; lia).
    assert (0 < waiting pb) as Hfuel by (unfold waiting; lia).
    destruct (waiting pb) as [|fuel]; [lia|].
    rewrite collectFragments_unfold.
    rewrite (ReadSlice_closed delim _ e); simpl; auto.
    + now rewrite app_nil_r.
    + apply not_elem_of_nil.
Qed.

(** X21: the pipe closed before the line was complete: when the buffer
    holds no CR, or only one as its last byte, [NextLine] on a closed pipe
    returns the empty string and the pipe's error; the started line it had
    buffered is gone with the call. *)
Theorem NextLine_on_a_closed_pipe pb e :
  done pb = Some e ->
  CR ∉ buffered pb
  \/ (exists seg, buffered pb = seg ++ [CR] /\ CR ∉ seg) ->
  NextLine pb
  = Some (LineReturned [] (Some e)
            (mkParserBuffer [] (pending pb) (Some e))).
Proof.
  intros Hd [Hnb|(seg & Hb & Hseg)]; unfold NextLine; cbn [NextLine_loop].
  - now rewrite (ReadString_closed CR pb e).
  - unfold ReadString. rewrite collectFragments_unfold. unfold ReadSlice.
    rewrite (ReadSlice_loop_found _ CR 0 pb seg []) by (auto; lia).
    unfold ReadByte. cbn [ReadByte_loop buffered].
    rewrite (fill_closed (mkParserBuffer [] (pending pb) (done pb)) e Hd).
    now rewrite Hd.
Qed.

Lemma fill_loop_blocks i : forall pb,
  done pb = None ->
  List.concat (pending pb) = [] ->
  empty_writes pb < i ->
  fill_loop i pb = FillBlocks.
Proof.
  induction i as [|i IH]; intros pb Hd Hc He; [lia|].
  simpl. unfold pipe_Read. rewrite Hd.
  unfold empty_writes in He.
  destruct (pending pb) as [|w ws]; [reflexivity|].
  simpl in Hc. apply app_eq_nil in Hc as [-> Hc].
  rewrite take_nil, drop_nil. apply IH; simpl; auto.
  unfold empty_writes. simpl in *. lia.
Qed.

(** [ReadSlice] when no delimiter is on its way: a full buffer when there
    is one to have, else it waits. *)
Lemma ReadSlice_loop_starved fuel delim : forall s pb,
  within_size pb ->
  empty_writes pb < maxConsecutiveEmptyReads ->
  done pb = None ->
  delim ∉ stream pb ->
  defaultBufSize - length (buffered pb) <= fuel ->
  if decide (defaultBufSize <= length (stream pb)) then
    exists pb',
      ReadSlice_loop fuel delim s pb
      = Some (SliceFull (take defaultBufSize (stream pb)) pb')
      /\ stream pb' = drop defaultBufSize (stream pb)
      /\ within_size pb'
      /\ empty_writes pb' <= empty_writes pb
      /\ done pb' = None
  else ReadSlice_loop fuel delim s pb = Some SliceBlocks.
Proof.
  induction fuel as [|fuel IH]; intros s pb Hw He Hd Hns Hfuel.
  all: unfold within_size in *.
  all: pose proof (stream_open pb Hd) as Hs.
  all: assert (delim ∉ buffered pb) as Hnb
         by (rewrite Hs in Hns; now apply not_elem_of_app in Hns).
  all: destruct (decide (defaultBufSize <= length (buffered pb))) as [Hf|Hf].
  1, 3: destruct (decide (defaultBufSize <= length (stream pb))) as [Hl|Hl];
          [|rewrite Hs, length_app in Hl; lia].
  1, 2: exists (mkParserBuffer [] (pending pb) (done pb)).
  1, 2: rewrite ReadSlice_loop_full by assumption.
  1, 2: rewrite Hs, take_app_length', drop_app_length' by lia.
  1, 2: repeat split; auto; [unfold stream; simpl; now rewrite Hd
                            |simpl; lia].
  - lia.
  - assert (ReadSlice_loop (S fuel) delim s pb
            = match fill pb with
              | Filled pb' =>
                  ReadSlice_loop fuel delim (length (buffered pb)) pb'
              | FillErr err pb' =>
                  Some (SliceErr (buffered pb') err
                          (mkParserBuffer [] (pending pb') (done pb')))
              | FillBlocks => Some SliceBlocks
              end) as ->.
    { rewrite ReadSlice_loop_unfold,
        (IndexByte_None _ _ (not_elem_of_drop _ s _ Hnb)).
      destruct (defaultBufSize <=? length (buffered pb)) eqn:E;
        [apply Nat.leb_le in E; lia|reflexivity]. }
    destruct (decide (List.concat (pending pb) = [])) as [Hc|Hc].
    + unfold fill. rewrite fill_loop_blocks by auto.
      destruct (decide (defaultBufSize <= length (stream pb))) as [Hl|Hl];
        [|reflexivity].
      rewrite Hs, Hc, app_nil_r in Hl. lia.
    + destruct (fill_loop_fills maxConsecutiveEmptyReads pb)
        as (d & pending' & Hfill & Hne & Hlen & Hcat & Hem); auto; [lia|].
      unfold fill. rewrite Hfill.
      set (pb1 := mkParserBuffer (buffered pb ++ d) pending' None) in *.
      assert (stream pb1 = stream pb) as Hs1.
      { rewrite Hs, Hcat. unfold stream. simpl. now rewrite app_assoc. }
      assert (empty_writes pb1 <= empty_writes pb) as He1
        by (unfold empty_writes, pb1 in *; simpl in *; lia).
      specialize (IH (length (buffered pb)) pb1).
      rewrite Hs1 in IH.
      destruct (decide (defaultBufSize <= length (stream pb))) as [Hl|Hl].
      * destruct IH as (pb' & Hres & Hs' & Hw' & He' & Hd'); auto; try lia.
        { simpl. rewrite length_app.
          assert (0 < length d) by (destruct d; simpl; [congruence|lia]).
          lia. }
        exists pb'. repeat split; auto; lia.
      * apply IH; auto; try lia.
        simpl. rewrite length_app.
        assert (0 < length d) by (destruct d; simpl; [congruence|lia]).
        lia.
Qed.

Lemma collectFragments_starved fuel delim : forall full pb,
  within_size pb ->
  empty_writes pb < maxConsecutiveEmptyReads ->
  done pb = None ->
  delim ∉ stream pb ->
  length (stream pb) < S fuel * defaultBufSize ->
  collectFragments fuel delim full pb = Some StringBlocks.
Proof.
  induction fuel as [|fuel IH]; intros full pb Hw He Hd Hns Hlen.
  all: rewrite collectFragments_unfold; unfold ReadSlice.
  all: pose proof (ReadSlice_loop_starved defaultBufSize delim 0 pb
                     Hw He Hd Hns ltac:(lia)) as Hres.
  all: destruct (decide (defaultBufSize <= length (stream pb))) as [Hl|Hl];
         [|now rewrite Hres].
  - rewrite Nat.mul_1_l in Hlen. lia.
  - destruct Hres as (pb' & -> & Hs' & Hw' & He' & Hd').
    apply IH; auto; try lia.
    + rewrite Hs'. now apply not_elem_of_drop.
    + rewrite Hs', length_drop. rewrite Nat.mul_succ_l in Hlen. lia.
Qed.

(** X22: no line on its way: on an open pipe whose waiting bytes hold no
    CR, [NextLine] does not return; having taken what there is, it waits
    for a writer. *)
Theorem NextLine_waits_for_a_line pb :
  within_size pb ->
  empty_writes pb < maxConsecutiveEmptyReads ->
  done pb = None ->
  CR ∉ stream pb ->
  NextLine pb = Some LineBlocked.
Proof.
  intros Hw He Hd Hns. unfold NextLine. cbn [NextLine_loop].
  unfold ReadString.
  rewrite collectFragments_starved; auto.
  pose proof (length_stream pb). pose proof defaultBufSize_pos.
  simpl. nia.
Qed.


End NextLineProps.

Lemma NextLine_returns_the_line_witness :
  exists pb',
    Parser.NextLine Sample.fed
    = Some (Parser.LineReturned ["v"; "="; "0"]%byte None pb')
    /\ Parser.stream pb' = []
    /\ Parser.within_size pb'
    /\ (Parser.empty_writes pb' <= Parser.empty_writes Sample.fed)%nat.
Proof.
  apply (NextLine_returns_the_line Sample.fed ["v"; "="; "0"]%byte []).
  - unfold Parser.within_size, Parser.defaultBufSize. simpl. lia.
  - unfold Parser.maxConsecutiveEmptyReads. vm_compute. lia.
  - reflexivity.
  - intros H.
    repeat (apply elem_of_cons in H as [H|H]; [discriminate H|]).
    now apply elem_of_nil in H.
Defined.


Lemma NextLine_on_a_closed_pipe_witness :
  Parser.NextLine Sample.fed_stopped
  = Some (Parser.LineReturned [] (Some Parser.ErrClosedPipe)
            (Parser.mkParserBuffer [] (Parser.pending Sample.fed_stopped)
               (Some Parser.ErrClosedPipe))).
Proof.
  apply (NextLine_on_a_closed_pipe Sample.fed_stopped Parser.ErrClosedPipe).
  - reflexivity.
  - left. intros H.
    repeat (apply elem_of_cons in H as [H|H]; [discriminate H|]).
    now apply elem_of_nil in H.
Defined.

Lemma NextLine_waits_for_a_line_witness :
  Parser.NextLine Sample.started = Some Parser.LineBlocked.
Proof.
  apply (NextLine_waits_for_a_line Sample.started).
  - unfold Parser.within_size, Parser.defaultBufSize. simpl. lia.
  - unfold Parser.maxConsecutiveEmptyReads. vm_compute. lia.
  - reflexivity.
  - intros H.
    repeat (apply elem_of_cons in H as [H|H]; [discriminate H|]).
    now apply elem_of_nil in H.
Defined.


(** ** The test helpers *)

Section Mocks.
Import Transport.

Lemma RemoteAddr_unset {C} (conn : C) (laddr : option Addr) (depth : nat) :
  Testutils.RemoteAddr depth (Testutils.mkMockConn conn laddr None) = None.
Proof. induction depth as [|depth IH]; simpl; auto. Qed.

(** X24: [MockListener.Close] cannot fail: it returns nil and leaves the
    listener closed whether it was open or closed before, so closing twice
    is closing once (the panic of closing a closed channel is recovered);
    and once the listener is closed, [Dial] hands out no connection: it
    returns a "dial" [net.OpError] that names the dialled network and
    address and the listener's address, or panics when the address is
    nil. *)
Theorem MockListener_Close_is_idempotent (ls : Testutils.MockListener) :
  let closed := (Testutils.Close ls).2 in
  (Testutils.Close ls).1 = None
  /\ Testutils.closed closed = true
  /\ Testutils.addr closed = Testutils.addr ls
  /\ Testutils.Close closed = (None, closed)
  /\ (forall network a,
        Testutils.Dial closed network (Some a)
        = Ok (Testutils.DialFailed
                (Testutils.mkOpError "dial" (addr_Network a)
                   (Testutils.addr ls) (Some a) "listener closed")))
  /\ (forall network,
        Testutils.Dial closed network None = Panic nil_dereference).
Proof.
  destruct ls as [a [|]]; repeat split.
Qed.

(** X25: the two ends [Dial] makes on an open listener answer for their
    addresses when the dialled address is not nil: the server end has it as
    its local address, the client end as its remote address, and each has
    the pipe's address on the other side.  Dialled with a nil address, the
    client end is one whose [RemoteAddr] never returns. *)
Theorem dialled_ends_know_their_addresses (ls : Testutils.MockListener)
    (network : string) (a : option Addr) :
  Testutils.closed ls = false ->
  exists server client,
    Testutils.Dial ls network a = Ok (Testutils.DialOffered server client)
    /\ Testutils.RemoteAddr 1 server = Some pipe_addr
    /\ Testutils.LocalAddr client = pipe_addr
    /\ (forall to, a = Some to ->
          Testutils.LocalAddr server = Some to
          /\ forall depth,
               Testutils.RemoteAddr (S depth) client = Some (Some to))
    /\ (a = None ->
        Testutils.LocalAddr server = pipe_addr
        /\ forall depth, Testutils.RemoteAddr depth client = None).
Proof.
  intros Hopen. unfold Testutils.Dial. rewrite Hopen.
  eexists _, _. split; [reflexivity|].
  split; [reflexivity|]. split; [reflexivity|]. split.
  - intros to ->. split; reflexivity.
  - intros ->. split; [reflexivity|]. intros depth. apply RemoteAddr_unset.
Qed.

(** X26: [MockTransportLayer.Cancel] closes the four channels of a layer
    that has none of them closed, and cannot be called twice: on a layer one
    of whose channels is closed, so on one that was cancelled before, it
    panics. *)
Theorem MockTransportLayer_Cancel_once (tpl : Testutils.MockTransportLayer) :
  (tpl = Testutils.NewMockTransportLayer ->
   Testutils.Cancel tpl
   = Ok (Testutils.mkMockTransportLayer true true true true))
  /\ (forall tpl',
        Testutils.Cancel tpl = Ok tpl' ->
        tpl = Testutils.NewMockTransportLayer
        /\ Testutils.Cancel tpl' = Panic "close of closed channel")
  /\ (tpl <> Testutils.NewMockTransportLayer ->
      Testutils.Cancel tpl = Panic "close of closed channel").
Proof.
  split; [now intros ->|]. split.
  - intros tpl'. destruct tpl as [[|] [|] [|] [|]]; try discriminate.
    intros [= <-]. split; reflexivity.
  - destruct tpl as [[|] [|] [|] [|]]; try reflexivity.
    intros H. now contradiction H.
Qed.

End Mocks.

Lemma dialled_ends_know_their_addresses_witness :
  exists server client,
    Testutils.Dial Sample.listener "tcp" (Some Sample.client_addr)
    = Ok (Testutils.DialOffered server client)
    /\ Testutils.LocalAddr server = Some Sample.client_addr
    /\ Testutils.RemoteAddr 1 client = Some (Some Sample.client_addr).
Proof.
  destruct (dialled_ends_know_their_addresses Sample.listener "tcp"
              (Some Sample.client_addr) eq_refl)
    as (server & client & Hdial & _ & _ & Hto & _).
  exists server, client. split; [exact Hdial|].
  destruct (Hto Sample.client_addr eq_refl) as [Hl Hr].
  split; [exact Hl|apply Hr].
Defined.

Lemma MockTransportLayer_Cancel_once_witness :
  Testutils.Cancel Testutils.NewMockTransportLayer
  = Ok (Testutils.mkMockTransportLayer true true true true)
  /\ Testutils.Cancel (Testutils.mkMockTransportLayer true true true true)
     = Panic "close of closed channel".
Proof.
  pose proof (MockTransportLayer_Cancel_once Testutils.NewMockTransportLayer)
    as (Hfirst & Hsecond & _).
  split; [now apply Hfirst|].
  now apply (Hsecond (Testutils.mkMockTransportLayer true true true true)).
Defined.
